(** * gh-forecast: billing aggregation, OS detection, fetch pipeline and cache

    A shallow embedding of [src/billing.ts], [src/api.ts] and [src/cache.ts],
    of the report helpers of [src/index.ts] and of [auth.js], together with
    the properties their design document states about them and further
    properties of the code.

    Conventions of the embedding.
    - JavaScript strings are [string]s of 8-bit characters; case mapping is
      the ASCII one.
    - A [number] that only ever holds an integer (epoch milliseconds, minutes,
      counters) is a [Z]: double arithmetic is exact on integers below 2^53.
      The division in [calculateDurationMinutes] is carried out in [Q]; for
      elapsed times below 2^52 ms this agrees with the two double divisions
      followed by [Math.ceil].
    - Timestamps are valid dates, so [getTime] never yields [NaN]; the clock
      itself is a parameter of everything that reads one.
    - The per-minute rates are fractions, so [estimateCost] is evaluated both
      in IEEE-754 binary64 (primitive floats, what the program computes) and
      in [Q] (what the formula denotes).
    - A JavaScript object used as a dictionary is a [gmap] and a [Set] or a
      [Map] a [gset] or a [gmap]; the keys met here (dates, [owner/repo]
      names, workflow keys) are not properties of [Object.prototype].
    - [throw] / [try] / [catch] are made explicit with [completion].
    - The REST client, [crypto], [JSON] and the file system are outside the
      repository: the client is a record of answers, the digest and the JSON
      codec are parameters, and the file system is an explicit state. *)

From Stdlib Require Import ZArith QArith Qround Floats Ascii String DecimalString.
From stdpp Require Import base gmap sets list strings sorting.

#[local] Set Warnings "-inexact-float,-clear-no-such-hyp".
#[local] Open Scope Z_scope.

(** ** Completions: normal return or a thrown exception *)

Inductive exn : Type :=
  | Error (message : string) (* throw new Error(message) *)
  | SyntaxError            (* new RegExp on a malformed pattern *)
  | HttpError (status : Z) (* a request rejected by the API *)
  | IOError.               (* a failing file-system call *)

Inductive completion (A : Type) : Type :=
  | Normal (a : A)
  | Throw (e : exn).
Arguments Normal {A} a.
Arguments Throw {A} e.

Definition bind {A B} (c : completion A) (k : A -> completion B) : completion B :=
  match c with
  | Normal a => k a
  | Throw e => Throw e
  end.

Notation "'let*' x ':=' c 'in' k" := (bind c (fun x => k))
  (at level 10, x name, c at level 100, k at level 200).

(** [try { body } catch { handler }] *)
Definition try_catch {A} (body : completion A) (handler : exn -> completion A) : completion A :=
  match body with
  | Normal a => Normal a
  | Throw e => handler e
  end.

(** [xs.map(f)] with a callback that may throw. *)
Fixpoint map_completion {X Y} (f : X -> completion Y) (xs : list X) : completion (list Y) :=
  match xs with
  | [] => Normal []
  | x :: rest =>
      let* y := f x in
      let* ys := map_completion f rest in
      Normal (y :: ys)
  end.

(** ** Strings *)

Module Str.

Definition is_upper (c : ascii) : bool :=
  let n := nat_of_ascii c in (Nat.leb 65 n && Nat.leb n 90)%bool.

Definition is_lower (c : ascii) : bool :=
  let n := nat_of_ascii c in (Nat.leb 97 n && Nat.leb n 122)%bool.

Definition lower_char (c : ascii) : ascii :=
  if is_upper c then ascii_of_nat (nat_of_ascii c + 32) else c.

Definition upper_char (c : ascii) : ascii :=
  if is_lower c then ascii_of_nat (nat_of_ascii c - 32) else c.

(** [s.toLowerCase()] *)
Fixpoint toLowerCase (s : string) : string :=
  match s with
  | EmptyString => EmptyString
  | String c s' => String (lower_char c) (toLowerCase s')
  end.

(** [s.startsWith(p)] *)
Fixpoint startsWith (p s : string) : bool :=
  match p, s with
  | EmptyString, _ => true
  | String _ _, EmptyString => false
  | String a p', String b s' => (Ascii.eqb a b && startsWith p' s')%bool
  end.

(** [s.includes(sub)] *)
Fixpoint includes (sub s : string) : bool :=
  (startsWith sub s ||
   match s with
   | EmptyString => false
   | String _ s' => includes sub s'
   end)%bool.

(** [s.split(sep)] for a one-character separator; never empty. *)
Fixpoint split (sep : ascii) (s : string) : list string :=
  match s with
  | EmptyString => [EmptyString]
  | String c s' =>
      if Ascii.eqb c sep then EmptyString :: split sep s'
      else match split sep s' with
           | [] => [String c EmptyString]
           | h :: t => String c h :: t
           end
  end.

(** [s.split(sep)[0]] *)
Definition split0 (sep : ascii) (s : string) : string :=
  match split sep s with
  | [] => EmptyString
  | h :: _ => h
  end.

(** The double quote, as a one-character string. *)
Definition dquote : string := String "034" EmptyString.

Definition is_space (c : ascii) : bool :=
  let n := nat_of_ascii c in (Nat.eqb n 32 || (Nat.leb 9 n && Nat.leb n 13))%bool.

Fixpoint trimStart (s : string) : string :=
  match s with
  | EmptyString => EmptyString
  | String c s' => if is_space c then trimStart s' else s
  end.

Fixpoint trimEnd (s : string) : string :=
  match s with
  | EmptyString => EmptyString
  | String c s' =>
      match trimEnd s' with
      | EmptyString => if is_space c then EmptyString else String c EmptyString
      | t => String c t
      end
  end.

(** [s.trim()] *)
Definition trim (s : string) : string := trimEnd (trimStart s).

(** JavaScript truthiness of a [string | null | undefined]. *)
Definition truthy (o : option string) : bool :=
  match o with
  | None => false
  | Some EmptyString => false
  | Some (String _ _) => true
  end.

(** [o || dflt] on a [string | null | undefined]. *)
Definition or_else (o : option string) (dflt : string) : string :=
  match o with
  | Some (String c s) => String c s
  | _ => dflt
  end.

End Str.

(** ** OS types and label mappings ([billing.ts]) *)

Inductive OSType : Type := linux | windows | macos | unknown.

#[global] Instance OSType_eq_dec : EqDecision OSType.
Proof. solve_decision. Defined.

Record LabelMapping : Type := { pattern : string; os : OSType }.

(** [MULTIPLIERS] *)
Definition MULTIPLIERS (o : OSType) : Z :=
  match o with
  | linux => 1
  | windows => 2
  | macos => 10
  | unknown => 1
  end.

(** [DEFAULT_PATTERNS] *)
Definition DEFAULT_PATTERNS : list LabelMapping :=
  [ {| pattern := "ubuntu";  os := linux |};
    {| pattern := "linux";   os := linux |};
    {| pattern := "windows"; os := windows |};
    {| pattern := "win";     os := windows |};
    {| pattern := "macos";   os := macos |};
    {| pattern := "mac";     os := macos |};
    {| pattern := "darwin";  os := macos |} ].

(** [['linux', 'windows', 'macos'].includes(normalizedOS)] and the cast. *)
Definition supportedOS (normalizedOS : string) : option OSType :=
  if String.eqb normalizedOS "linux" then Some linux
  else if String.eqb normalizedOS "windows" then Some windows
  else if String.eqb normalizedOS "macos" then Some macos
  else None.

(** [parseLabelMappings] *)
Definition parseLabelMappings (input : string) : completion (list LabelMapping) :=
  if negb (Str.truthy (Some input)) then Normal []
  else
    map_completion
      (fun mapping =>
         let parts := Str.split ":" (Str.trim mapping) in
         let pattern := parts !! 0%nat in
         let os := parts !! 1%nat in
         if (negb (Str.truthy pattern) || negb (Str.truthy os))%bool
         then Throw (Error ("Invalid label mapping: " +:+ mapping +:+ ". Expected format: "
                            +:+ Str.dquote +:+ "pattern:os" +:+ Str.dquote))
         else
           let normalizedOS := Str.toLowerCase (default EmptyString os) in
           match supportedOS normalizedOS with
           | None =>
               Throw (Error ("Invalid OS type: " +:+ default EmptyString os
                             +:+ ". Must be linux, windows, or macos"))
           | Some o =>
               Normal {| pattern := Str.toLowerCase (default EmptyString pattern); os := o |}
           end)
      (Str.split "," input).

(** ** Regular expressions produced by [matchesPattern]

    Only the fragment of ECMAScript patterns that the two [replace] calls can
    produce is interpreted: escaped characters, ordinary characters, [.], and
    the quantifiers [*] and [?] (each optionally followed by the lazy marker
    [?], which does not change what an anchored [test] accepts). *)

Module RegExp.

Inductive token : Type :=
  | TChar (c : ascii)   (* an ordinary or an escaped character *)
  | TDot                (* . *)
  | TStar               (* * *)
  | TQuest              (* ? *)
  | TOther (c : ascii). (* any other syntax character, left unescaped *)

Definition isSyntaxCharacter (c : ascii) : bool :=
  Str.includes (String c EmptyString) "^$\.*+?()[]{}|".

Definition classify (c : ascii) : token :=
  if Ascii.eqb c "." then TDot
  else if Ascii.eqb c "*" then TStar
  else if Ascii.eqb c "?" then TQuest
  else if isSyntaxCharacter c then TOther c
  else TChar c.

Fixpoint tokens (s : string) : list token :=
  match s with
  | EmptyString => []
  | String c s' =>
      if Ascii.eqb c "\" then
        match s' with
        | EmptyString => [TOther c]
        | String d s'' => TChar d :: tokens s''
        end
      else classify c :: tokens s'
  end.

Inductive atom : Type := Char (c : ascii) | Dot.
Inductive quantifier : Type := Once | Optional | Star.

Definition atom_of (t : token) : option atom :=
  match t with
  | TChar c => Some (Char c)
  | TDot => Some Dot
  | _ => None
  end.

(** A term is an atom with its quantifier; a quantifier with no atom before
    it ("nothing to repeat") does not parse. *)
Fixpoint parse (ts : list token) : option (list (atom * quantifier)) :=
  match ts with
  | [] => Some []
  | t :: rest =>
      match atom_of t with
      | None => None
      | Some a =>
          match rest with
          | TStar :: TQuest :: r => cons (a, Star) <$> parse r
          | TStar :: r => cons (a, Star) <$> parse r
          | TQuest :: TQuest :: r => cons (a, Optional) <$> parse r
          | TQuest :: r => cons (a, Optional) <$> parse r
          | r => cons (a, Once) <$> parse r
          end
      end
  end.

(** Line terminators, which [.] does not match (no [s] flag). *)
Definition isLineTerminator (c : ascii) : bool :=
  (Ascii.eqb c "010" || Ascii.eqb c "013")%bool.

(** Character comparison under the [i] flag. *)
Definition eq_ignore_case (a b : ascii) : bool :=
  Ascii.eqb (Str.upper_char a) (Str.upper_char b).

Definition atom_matches (a : atom) (c : ascii) : bool :=
  match a with
  | Char d => eq_ignore_case d c
  | Dot => negb (isLineTerminator c)
  end.

(** Anchored match of a sequence of terms against the whole input. *)
Fixpoint matches (re : list (atom * quantifier)) (s : string) : bool :=
  match re with
  | [] => match s with EmptyString => true | _ => false end
  | (a, Once) :: re' =>
      match s with
      | EmptyString => false
      | String c s' => (atom_matches a c && matches re' s')%bool
      end
  | (a, Optional) :: re' =>
      (matches re' s ||
       match s with
       | EmptyString => false
       | String c s' => (atom_matches a c && matches re' s')%bool
       end)%bool
  | (a, Star) :: re' =>
      (fix star (s : string) : bool :=
         (matches re' s ||
          match s with
          | EmptyString => false
          | String c s' => (atom_matches a c && star s')%bool
          end)%bool) s
  end.

(** [new RegExp('^' + source + '$', 'i')]: [None] is a [SyntaxError]. *)
Definition compile_anchored (source : string) : option (list (atom * quantifier)) :=
  parse (tokens source).

End RegExp.

(** ** [matchesPattern] and [detectOS] *)

(** The characters of the class [[.+^${}()|[\]\\]]. *)
Definition isEscaped (c : ascii) : bool :=
  Str.includes (String c EmptyString) ".+^${}()|[]\".

(** [pattern.replace(/[.+^${}()|[\]\\]/g, '\\$&')] *)
Fixpoint escapeSpecial (p : string) : string :=
  match p with
  | EmptyString => EmptyString
  | String c p' =>
      if isEscaped c then String "\" (String c (escapeSpecial p'))
      else String c (escapeSpecial p')
  end.

(** [.replace(/\*/g, '.*')] *)
Fixpoint starToDotStar (p : string) : string :=
  match p with
  | EmptyString => EmptyString
  | String c p' =>
      if Ascii.eqb c "*" then String "." (String "*" (starToDotStar p'))
      else String c (starToDotStar p')
  end.

Definition regexPattern (p : string) : string := starToDotStar (escapeSpecial p).

Definition matchesPattern (label p : string) : completion bool :=
  match RegExp.compile_anchored (regexPattern p) with
  | None => Throw SyntaxError
  | Some re => Normal (RegExp.matches re label)
  end.

(** The inner loop [for (const label of lowerLabels)] of the custom pass. *)
Fixpoint anyLabelMatches (lowerLabels : list string) (p : string) : completion bool :=
  match lowerLabels with
  | [] => Normal false
  | label :: rest =>
      let* b := matchesPattern label p in
      if b then Normal true else anyLabelMatches rest p
  end.

(** The loop over [customMappings]: [Some os] is the early [return]. *)
Fixpoint customPass (lowerLabels : list string) (customMappings : list LabelMapping)
  : completion (option OSType) :=
  match customMappings with
  | [] => Normal None
  | mapping :: rest =>
      let* b := anyLabelMatches lowerLabels (pattern mapping) in
      if b then Normal (Some (os mapping)) else customPass lowerLabels rest
  end.

(** The loop over [DEFAULT_PATTERNS]. *)
Fixpoint defaultPass (lowerLabels : list string) (defaults : list LabelMapping) : option OSType :=
  match defaults with
  | [] => None
  | mapping :: rest =>
      if existsb (Str.includes (pattern mapping)) lowerLabels then Some (os mapping)
      else defaultPass lowerLabels rest
  end.

Definition detectOS (labels : list string) (customMappings : list LabelMapping)
  : completion OSType :=
  let lowerLabels := map Str.toLowerCase labels in
  let* r := customPass lowerLabels customMappings in
  match r with
  | Some o => Normal o
  | None =>
      match defaultPass lowerLabels DEFAULT_PATTERNS with
      | Some o => Normal o
      | None => Normal unknown
      end
  end.

(** ** Jobs ([api.ts]) *)

(** [WorkflowJob]; [id] and [name] are spelled [job_id] and [job_name]. *)
Record WorkflowJob : Type := {
  job_id : Z;
  run_id : Z;
  job_name : string;
  status : string;
  conclusion : option string;
  started_at : string;
  completed_at : option string;
  labels : list string;
  runner_name : option string;
  runner_group_name : option string
}.

(** [JobWithRepo extends WorkflowJob]; [null] and [undefined] are [None]. *)
Record JobWithRepo : Type := {
  base : WorkflowJob;
  repo_full_name : string;
  workflow_name : option string
}.

(** ** Billing records ([billing.ts]) *)

(** [BillingResult], fields prefixed with [br_]. *)
Record BillingResult : Type := {
  br_job : JobWithRepo;
  br_os : OSType;
  br_durationMinutes : Z;
  br_multiplier : Z;
  br_billableMinutes : Z
}.

(** [{ minutes, billableMinutes, jobCount }], the value type of [byOS] and
    [byDate]. *)
Record Rollup : Type := {
  r_minutes : Z;
  r_billableMinutes : Z;
  r_jobCount : Z
}.

(** The value type of [byWorkflow]. *)
Record WorkflowRollup : Type := {
  wf_minutes : Z;
  wf_billableMinutes : Z;
  wf_jobCount : Z;
  wf_runCount : Z
}.

(** The value type of [byRepo]. *)
Record RepoRollup : Type := {
  repo_minutes : Z;
  repo_billableMinutes : Z;
  repo_jobCount : Z;
  repo_workflows : gset string
}.

(** [Record<OSType, Rollup>]: one bucket per OS, in the order the object
    literal of [aggregateBilling] lists them. *)
Record ByOS : Type := {
  on_linux : Rollup;
  on_windows : Rollup;
  on_macos : Rollup;
  on_unknown : Rollup
}.

Definition byOS_get (b : ByOS) (o : OSType) : Rollup :=
  match o with
  | linux => on_linux b
  | windows => on_windows b
  | macos => on_macos b
  | unknown => on_unknown b
  end.

Definition byOS_set (b : ByOS) (o : OSType) (r : Rollup) : ByOS :=
  match o with
  | linux =>
      {| on_linux := r; on_windows := on_windows b;
         on_macos := on_macos b; on_unknown := on_unknown b |}
  | windows =>
      {| on_linux := on_linux b; on_windows := r;
         on_macos := on_macos b; on_unknown := on_unknown b |}
  | macos =>
      {| on_linux := on_linux b; on_windows := on_windows b;
         on_macos := r; on_unknown := on_unknown b |}
  | unknown =>
      {| on_linux := on_linux b; on_windows := on_windows b;
         on_macos := on_macos b; on_unknown := r |}
  end.

(** [Object.entries(byOS)] *)
Definition byOS_entries (b : ByOS) : list (OSType * Rollup) :=
  [ (linux, on_linux b); (windows, on_windows b); (macos, on_macos b); (unknown, on_unknown b) ].

Record AggregatedBilling : Type := {
  totalMinutes : Z;
  totalBillableMinutes : Z;
  byOS : ByOS;
  byWorkflow : gmap string WorkflowRollup;
  byRepo : gmap string RepoRollup;
  byDate : gmap string Rollup;
  jobCount : Z;
  runCount : Z;
  jobs : list BillingResult
}.

Definition zeroRollup : Rollup :=
  {| r_minutes := 0; r_billableMinutes := 0; r_jobCount := 0 |}.
Definition zeroWorkflowRollup : WorkflowRollup :=
  {| wf_minutes := 0; wf_billableMinutes := 0; wf_jobCount := 0; wf_runCount := 0 |}.
Definition zeroRepoRollup : RepoRollup :=
  {| repo_minutes := 0; repo_billableMinutes := 0; repo_jobCount := 0; repo_workflows := ∅ |}.

(** [if (!m[k]) m[k] = init; m[k] = f(m[k])]: the create-then-update idiom
    of every keyed rollup. *)
Definition upsert {V} (k : string) (init : V) (f : V -> V) (m : gmap string V) : gmap string V :=
  <[k := f (default init (m !! k))]> m.

Definition addRollup (d b : Z) (r : Rollup) : Rollup :=
  {| r_minutes := r_minutes r + d;
     r_billableMinutes := r_billableMinutes r + b;
     r_jobCount := r_jobCount r + 1 |}.

Definition addWorkflowRollup (d b : Z) (r : WorkflowRollup) : WorkflowRollup :=
  {| wf_minutes := wf_minutes r + d;
     wf_billableMinutes := wf_billableMinutes r + b;
     wf_jobCount := wf_jobCount r + 1;
     wf_runCount := wf_runCount r |}.

Definition addRepoRollup (d b : Z) (wf : string) (r : RepoRollup) : RepoRollup :=
  {| repo_minutes := repo_minutes r + d;
     repo_billableMinutes := repo_billableMinutes r + b;
     repo_jobCount := repo_jobCount r + 1;
     repo_workflows := {[ wf ]} ∪ repo_workflows r |}.

(** [`${job.repo_full_name}/${job.workflow_name || 'unknown'}`] *)
Definition workflowKey (j : JobWithRepo) : string :=
  repo_full_name j +:+ "/" +:+ Str.or_else (workflow_name j) "unknown".

(** [job.started_at.split('T')[0]] *)
Definition dateKey (j : JobWithRepo) : string :=
  Str.split0 "T" (started_at (base j)).

(** [getMultiplier] *)
Definition getMultiplier (o : OSType) : Z := MULTIPLIERS o.

(** The state of the first loop of [aggregateBilling]. *)
Record LoopState : Type := {
  result : AggregatedBilling;
  seenRunIds : gset Z
}.

Definition initialResult : AggregatedBilling :=
  {| totalMinutes := 0;
     totalBillableMinutes := 0;
     byOS := {| on_linux := zeroRollup; on_windows := zeroRollup;
                on_macos := zeroRollup; on_unknown := zeroRollup |};
     byWorkflow := ∅;
     byRepo := ∅;
     byDate := ∅;
     jobCount := 0;
     runCount := 0;
     jobs := [] |}.

(** Lines 191-232: what one completed job adds once [processJob] returned. *)
Definition record_job (st : LoopState) (billing : BillingResult) : LoopState :=
  let job := br_job billing in
  let d := br_durationMinutes billing in
  let b := br_billableMinutes billing in
  let res := result st in
  {| result :=
       {| totalMinutes := totalMinutes res + d;
          totalBillableMinutes := totalBillableMinutes res + b;
          byOS := byOS_set (byOS res) (br_os billing)
                    (addRollup d b (byOS_get (byOS res) (br_os billing)));
          byWorkflow := upsert (workflowKey job) zeroWorkflowRollup
                          (addWorkflowRollup d b) (byWorkflow res);
          byRepo := upsert (repo_full_name job) zeroRepoRollup
                      (addRepoRollup d b (Str.or_else (workflow_name job) "unknown"))
                      (byRepo res);
          byDate := upsert (dateKey job) zeroRollup (addRollup d b) (byDate res);
          jobCount := jobCount res + 1;
          runCount := runCount res;
          jobs := jobs res ++ [billing] |};
     seenRunIds := {[ run_id (base job) ]} ∪ seenRunIds st |}.

(** Lines 243-251: the pass that collects the run ids of every workflow. *)
Definition collect_run (runsByWorkflow : gmap string (gset Z)) (j : JobWithRepo)
  : gmap string (gset Z) :=
  if negb (Str.truthy (completed_at (base j))) then runsByWorkflow
  else upsert (workflowKey j) ∅ (fun runs => {[ run_id (base j) ]} ∪ runs) runsByWorkflow.

Definition set_runCount (n : Z) (r : WorkflowRollup) : WorkflowRollup :=
  {| wf_minutes := wf_minutes r;
     wf_billableMinutes := wf_billableMinutes r;
     wf_jobCount := wf_jobCount r;
     wf_runCount := n |}.

(** Lines 252-256: [for (const [key, runs] of runsByWorkflow)]. *)
Definition apply_runCounts (runsByWorkflow : gmap string (gset Z))
    (bw : gmap string WorkflowRollup) : gmap string WorkflowRollup :=
  map_fold (fun key runs acc =>
              match acc !! key with
              | Some r => <[key := set_runCount (Z.of_nat (size runs)) r]> acc
              | None => acc
              end) bw runsByWorkflow.

(** [for (const x of xs) body] with a body that may throw. *)
Fixpoint for_each {S X} (body : S -> X -> completion S) (xs : list X) (st : S) : completion S :=
  match xs with
  | [] => Normal st
  | x :: rest => let* st' := body st x in for_each body rest st'
  end.

Section Billing.

(** [new Date(s).getTime()] for the timestamps the program handles. *)
Variable getTime : string -> Z.

(** [new Date(completedAt)] where the argument may be [null] at run time
    (the [!] of [job.completed_at!] is erased): [new Date(null)] is the
    epoch. *)
Definition getTime_nullable (o : option string) : Z :=
  match o with
  | Some s => getTime s
  | None => 0
  end.

(** [Math.ceil(durationMs / 1000 / 60)] *)
Definition ceilMinutes (durationMs : Z) : Z :=
  Qceiling (inject_Z durationMs / 1000 / 60)%Q.

(** [completedAt] is a [string] for the type checker; [processJob] passes
    [job.completed_at!], so [null] can reach it at run time. *)
Definition calculateDurationMinutes (startedAt : string) (completedAt : option string) : Z :=
  let start := getTime startedAt in
  let end_ := getTime_nullable completedAt in
  let durationMs := end_ - start in
  ceilMinutes durationMs.

Definition calculateBillableMinutes (startedAt : string) (completedAt : option string)
    (multiplier : Z) : Z :=
  let durationMinutes := calculateDurationMinutes startedAt completedAt in
  durationMinutes * multiplier.

Definition processJob (job : JobWithRepo) (customMappings : list LabelMapping)
  : completion BillingResult :=
  let* o := detectOS (labels (base job)) customMappings in
  let multiplier := getMultiplier o in
  let durationMinutes :=
    calculateDurationMinutes (started_at (base job)) (completed_at (base job)) in
  let billableMinutes := durationMinutes * multiplier in
  Normal {| br_job := job; br_os := o; br_durationMinutes := durationMinutes;
            br_multiplier := multiplier; br_billableMinutes := billableMinutes |}.

(** The body of the first loop, lines 187-233. *)
Definition aggregate_step (customMappings : list LabelMapping)
    (st : LoopState) (job : JobWithRepo) : completion LoopState :=
  if negb (Str.truthy (completed_at (base job))) then Normal st
  else
    let* billing := processJob job customMappings in
    Normal (record_job st billing).

(** The loop of lines 236-240 only computes a key and has no effect; it is
    left out. *)
Definition aggregateBilling (jobList : list JobWithRepo) (customMappings : list LabelMapping)
  : completion AggregatedBilling :=
  let* st := for_each (aggregate_step customMappings) jobList
               {| result := initialResult; seenRunIds := ∅ |} in
  let runsByWorkflow := foldl collect_run ∅ jobList in
  let res := result st in
  Normal {| totalMinutes := totalMinutes res;
            totalBillableMinutes := totalBillableMinutes res;
            byOS := byOS res;
            byWorkflow := apply_runCounts runsByWorkflow (byWorkflow res);
            byRepo := byRepo res;
            byDate := byDate res;
            jobCount := jobCount res;
            runCount := Z.of_nat (size (seenRunIds st));
            jobs := jobs res |}.

End Billing.

(** ** A concrete clock for examples

    [isoTime] reads the fixed-width UTC format [YYYY-MM-DDTHH:MM:SSZ] in
    which the API reports timestamps and returns epoch milliseconds, as
    [Date.prototype.getTime] does on such a string. *)

Module Iso.

Definition digit (c : ascii) : Z := Z.of_nat (nat_of_ascii c) - 48.

Fixpoint number_from (acc : Z) (s : string) : Z :=
  match s with
  | EmptyString => acc
  | String c s' => number_from (acc * 10 + digit c) s'
  end.

Definition field (start len : nat) (s : string) : Z :=
  number_from 0 (String.substring start len s).

(** Days from 1970-01-01 to the given proleptic Gregorian date. *)
Definition daysFromCivil (y m d : Z) : Z :=
  let y' := if m <=? 2 then y - 1 else y in
  let era := y' / 400 in
  let yoe := y' - era * 400 in
  let mp := if m <=? 2 then m + 9 else m - 3 in
  let doy := (153 * mp + 2) / 5 + d - 1 in
  let doe := yoe * 365 + yoe / 4 - yoe / 100 + doy in
  era * 146097 + doe - 719468.

End Iso.

Definition isoTime (s : string) : Z :=
  let days := Iso.daysFromCivil (Iso.field 0 4 s) (Iso.field 5 2 s) (Iso.field 8 2 s) in
  let secs := Iso.field 11 2 s * 3600 + Iso.field 14 2 s * 60 + Iso.field 17 2 s in
  (days * 86400 + secs) * 1000.

(** ** Cost estimation ([billing.ts])

    [estimateCost] is written once over an arbitrary carrier for [number]
    and read twice: in binary64, which is what the program computes, and in
    [Q], which is what the formula means. *)

Section Cost.

Context {N : Type} (zero : N) (add mul : N -> N -> N) (of_Z : Z -> N) (rate : OSType -> N).

Definition estimateCost_in (billing : AggregatedBilling) : N :=
  foldl (fun totalCost entry =>
           add totalCost (mul (of_Z (r_minutes (snd entry))) (rate (fst entry))))
        zero (byOS_entries (byOS billing)).

End Cost.

(** An integer-valued double; exact below 2^53. *)
Definition Z2float (z : Z) : float :=
  if z <? 0 then PrimFloat.opp (PrimFloat.of_uint63 (Uint63.of_Z (- z)))
  else PrimFloat.of_uint63 (Uint63.of_Z z).

(** [COST_PER_MINUTE], the literals rounded to binary64. *)
Definition COST_PER_MINUTE (o : OSType) : float :=
  match o with
  | linux => 0.008
  | windows => 0.016
  | macos => 0.08
  | unknown => 0.008
  end%float.

(** [COST_PER_MINUTE], the literals read as decimal fractions. *)
Definition COST_PER_MINUTE_exact (o : OSType) : Q :=
  match o with
  | linux => 8 # 1000
  | windows => 16 # 1000
  | macos => 8 # 100
  | unknown => 8 # 1000
  end.


Definition estimateCost_exact : AggregatedBilling -> Q :=
  estimateCost_in 0%Q Qplus Qmult inject_Z COST_PER_MINUTE_exact.

(** ** The fetch pipeline ([api.ts])

    A paginated listing is the sequence of its pages, each of which either
    arrives or makes the request throw. Progress callbacks are no-ops. The
    worker pool only bounds how many listings are in flight; [Promise.all]
    returns the results in task order, so the pipeline is modelled
    sequentially. *)

(** [WorkflowRun], fields prefixed with [wr_]; [repository] is flattened. *)
Record WorkflowRun : Type := {
  wr_id : Z;
  wr_name : option string;
  wr_status : option string;
  wr_conclusion : option string;
  created_at : string;
  run_started_at : option string;
  repository_name : string;
  repository_full_name : string
}.

(** [Repository]; [name] is spelled [repo_name]. *)
Record Repository : Type := {
  repo_name : string;
  full_name : string;
  owner : string
}.

Definition pages (X : Type) : Type := list (completion (list X)).

(** [for await (const response of iterator) body(response.data)] *)
Fixpoint for_await {S X} (body : S -> list X -> completion S) (ps : pages X) (st : S)
  : completion S :=
  match ps with
  | [] => Normal st
  | Throw e :: _ => Throw e
  | Normal data :: rest => let* st' := body st data in for_await body rest st'
  end.

(** The REST client: what each listing endpoint answers. *)
Record Octokit : Type := {
  listWorkflowRunsForRepo : string -> string -> string -> pages WorkflowRun;
  listJobsForWorkflowRun : string -> option string -> Z -> pages WorkflowJob
}.

Section Api.

Variable getTime : string -> Z.
(** [date.toISOString()] *)
Variable toISOString : Z -> string.

Definition listWorkflowRuns (octokit : Octokit) (owner repo : string) (since until : Z)
  : completion (list WorkflowRun) :=
  let sinceISO := Str.split0 "T" (toISOString since) in
  let untilISO := Str.split0 "T" (toISOString until) in
  try_catch
    (for_await
       (fun runs data =>
          Normal (runs ++ filter (fun run =>
                                    let runDate := getTime (created_at run) in
                                    since <= runDate /\ runDate <= until) data))
       (listWorkflowRunsForRepo octokit owner repo (sinceISO +:+ ".." +:+ untilISO))
       [])
    (fun _ => Normal []).

End Api.

Definition listRunJobs (octokit : Octokit) (owner : string) (repo : option string) (runId : Z)
  : completion (list WorkflowJob) :=
  try_catch
    (for_await
       (fun jobs data =>
          Normal (jobs ++ filter (fun job => Str.truthy (completed_at job) = true) data))
       (listJobsForWorkflowRun octokit owner repo runId)
       [])
    (fun _ => Normal []).

(** [const [owner, repo] = full_name.split('/')] *)
Definition owner_of (full : string) : string := Str.split0 "/" full.
Definition repo_of (full : string) : option string := Str.split "/" full !! 1%nat.

(** One task of [fetchAllJobs]. *)
Definition fetchRunJobs (octokit : Octokit) (run : WorkflowRun) : completion (list JobWithRepo) :=
  let owner := owner_of (repository_full_name run) in
  let repo := repo_of (repository_full_name run) in
  let* jobs := listRunJobs octokit owner repo (wr_id run) in
  Normal (map (fun job => {| base := job;
                             repo_full_name := repository_full_name run;
                             workflow_name := wr_name run |}) jobs).

(** [await Promise.all(tasks)] followed by the flattening loop. *)
Fixpoint gather {X Y} (task : X -> completion (list Y)) (xs : list X) : completion (list Y) :=
  match xs with
  | [] => Normal []
  | x :: rest =>
      let* ys := task x in
      let* more := gather task rest in
      Normal (ys ++ more)
  end.

(** [cached] is what [getCache(cacheKey, cacheTtlMs)] answered ([None] for
    [null]); the write to the cache does not affect the value returned. *)
Definition fetchAllJobs (octokit : Octokit) (runs : list WorkflowRun)
    (useCache : bool) (cached : option (list JobWithRepo)) : completion (list JobWithRepo) :=
  match useCache, cached with
  | true, Some hit => Normal hit
  | _, _ => gather (fetchRunJobs octokit) runs
  end.

Definition fetchOrgWorkflowRuns (getTime : string -> Z) (toISOString : Z -> string)
    (octokit : Octokit) (repos : list Repository) (since until : Z)
    (useCache : bool) (cached : option (list WorkflowRun)) : completion (list WorkflowRun) :=
  match useCache, cached with
  | true, Some hit => Normal hit
  | _, _ =>
      gather (fun repo => listWorkflowRuns getTime toISOString octokit
                            (owner repo) (repo_name repo) since until) repos
  end.

(** ** The cache store ([cache.ts])

    File-system calls act on an explicit [FileSystem]; a call that throws
    leaves the effects of the calls before it in place. The disk does not
    fail on its own: a call throws only for the state it finds (reading or
    unlinking a file that is not there). *)

Record FileSystem : Type := {
  directories : gset string;
  files : gmap string string
}.

Definition io (A : Type) : Type := FileSystem -> completion A * FileSystem.

Definition io_ret {A} (a : A) : io A := fun fs => (Normal a, fs).

Definition io_throw {A} (e : exn) : io A := fun fs => (Throw e, fs).

Definition io_bind {A B} (c : io A) (k : A -> io B) : io B :=
  fun fs =>
    match c fs with
    | (Normal a, fs') => k a fs'
    | (Throw e, fs') => (Throw e, fs')
    end.

Notation "'let+' x ':=' c 'in' k" := (io_bind c (fun x => k))
  (at level 10, x name, c at level 100, k at level 200).

(** [try { body } catch { return handler }] around file-system code. *)
Definition io_try {A} (body : io A) (handler : A) : io A :=
  fun fs =>
    match body fs with
    | (Normal a, fs') => (Normal a, fs')
    | (Throw _, fs') => (Normal handler, fs')
    end.

Definition existsSync (p : string) : io bool :=
  fun fs => (Normal (bool_decide (p ∈ directories fs \/ is_Some (files fs !! p))), fs).

Definition mkdirSync (p : string) : io unit :=
  fun fs => (Normal tt, {| directories := {[ p ]} ∪ directories fs; files := files fs |}).

Definition readFileSync (p : string) : io string :=
  fun fs =>
    match files fs !! p with
    | Some content => (Normal content, fs)
    | None => (Throw IOError, fs)
    end.

(** The parent directory exists at every call site: [ensureCacheDir] ran. *)
Definition writeFileSync (p content : string) : io unit :=
  fun fs =>
    (Normal tt, {| directories := directories fs; files := <[p := content]> (files fs) |}).

Definition unlinkSync (p : string) : io unit :=
  fun fs =>
    match files fs !! p with
    | Some _ => (Normal tt, {| directories := directories fs; files := delete p (files fs) |})
    | None => (Throw IOError, fs)
    end.

Record CacheEntry (T : Type) : Type := {
  version : string;
  timestamp : Z;
  ttlMs : Z;
  data : T
}.
Arguments version {T} _.
Arguments timestamp {T} _.
Arguments ttlMs {T} _.
Arguments data {T} _.

Definition CACHE_VERSION : string := "1".
Definition DEFAULT_TTL_MS : Z := 1000 * 60 * 60.

Section Cache.

Context {T : Type}.

(** [path.join(os.homedir(), '.gh-forecast-cache')] *)
Variable CACHE_DIR : string.
(** [crypto.createHash('md5').update(s).digest('hex')] *)
Variable md5hex : string -> string.
(** [JSON.stringify] and [JSON.parse] at type [CacheEntry<T>]; [None] is a
    thrown error. *)
Variable JSON_stringify : CacheEntry T -> string.
Variable JSON_parse : string -> option (CacheEntry T).

Definition ensureCacheDir : io unit :=
  let+ present := existsSync CACHE_DIR in
  if negb present then mkdirSync CACHE_DIR else io_ret tt.

Definition getCacheKey (parts : list string) : string :=
  md5hex (String.concat "|" parts).

Definition getCachePath (key : string) : string :=
  CACHE_DIR +:+ "/" +:+ key +:+ ".json".

Definition parseEntry (content : string) : io (CacheEntry T) :=
  match JSON_parse content with
  | Some entry => io_ret entry
  | None => io_throw SyntaxError
  end.

(** [now] is the value [Date.now()] returns during the call. *)
Definition getCache (now : Z) (keyParts : list string) (ttl : Z) : io (option T) :=
  io_try
    (let+ _ := ensureCacheDir in
     let key := getCacheKey keyParts in
     let cachePath := getCachePath key in
     let+ present := existsSync cachePath in
     if negb present then io_ret None
     else
       let+ content := readFileSync cachePath in
       let+ entry := parseEntry content in
       if negb (String.eqb (version entry) CACHE_VERSION) then
         let+ _ := unlinkSync cachePath in io_ret None
       else
         let age := now - timestamp entry in
         if age >? ttl then
           let+ _ := unlinkSync cachePath in io_ret None
         else io_ret (Some (data entry)))
    None.

Definition setCache (now : Z) (keyParts : list string) (d : T) (ttl : Z) : io unit :=
  io_try
    (let+ _ := ensureCacheDir in
     let key := getCacheKey keyParts in
     let cachePath := getCachePath key in
     let entry := {| version := CACHE_VERSION; timestamp := now; ttlMs := ttl; data := d |} in
     writeFileSync cachePath (JSON_stringify entry))
    tt.

End Cache.

(** ** Printing and sorting *)

(** [String(n)] for an integer [n]. *)
Definition numberToString (z : Z) : string := NilZero.string_of_int (Z.to_int z).

(** The order of [Array.prototype.sort] without a comparator: strings by
    their code units. *)
Definition string_le (a b : string) : Prop := String.leb a b = true.

#[global] Instance string_le_dec a b : Decision (string_le a b).
Proof. unfold string_le. apply _. Defined.

(** [xs.sort()] on strings, and on numbers, which it orders by the strings
    they convert to. The order being total and antisymmetric, every sorting
    algorithm returns the same list. *)
Definition sortStrings (xs : list string) : list string := merge_sort string_le xs.

(** ** Cost projections ([billing.ts]) *)

(** [{ daily, weekly, monthly }] *)
Record Projections (N : Type) : Type := {
  daily : N;
  weekly : N;
  monthly : N
}.
Arguments daily {N} _.
Arguments weekly {N} _.
Arguments monthly {N} _.

Section Projection.

Context {N : Type} (zero : N) (add mul div : N -> N -> N) (of_Z : Z -> N) (rate : OSType -> N).

(** [projectCosts]; the unused [dailyMinutes] is left out. *)
Definition projectCosts_in (billing : AggregatedBilling) (daysOfData : Z) : Projections N :=
  let dailyCost := div (estimateCost_in zero add mul of_Z rate billing) (of_Z daysOfData) in
  {| daily := dailyCost;
     weekly := mul dailyCost (of_Z 7);
     monthly := mul dailyCost (of_Z 30) |}.

End Projection.

Definition projectCosts : AggregatedBilling -> Z -> Projections float :=
  projectCosts_in 0%float PrimFloat.add PrimFloat.mul PrimFloat.div Z2float COST_PER_MINUTE.

(** The projections as fractions; [Qdiv] agrees with the division of
    numbers for a divisor other than 0. *)
Definition projectCosts_exact : AggregatedBilling -> Z -> Projections Q :=
  projectCosts_in 0%Q Qplus Qmult Qdiv inject_Z COST_PER_MINUTE_exact.

(** ** The report ([index.ts]) *)

(** [Math.max(1, differenceInDays(endDate, startDate))], given the
    difference. *)
Definition dayCount (differenceInDays : Z) : Z := Z.max 1 differenceInDays.

(** [grouped[periodKey].minutes += data.minutes] and the two lines after
    it. *)
Definition mergeRollup (data grouped : Rollup) : Rollup :=
  {| r_minutes := r_minutes grouped + r_minutes data;
     r_billableMinutes := r_billableMinutes grouped + r_billableMinutes data;
     r_jobCount := r_jobCount grouped + r_jobCount data |}.

Section Report.

(** [format(startOfWeek(parseISO(dateStr), { weekStartsOn: 1 }), 'yyyy-MM-dd')]
    and [format(startOfMonth(parseISO(dateStr)), 'yyyy-MM')], for the keys of
    [byDate], which are valid dates. *)
Variable weekKey : string -> string.
Variable monthKey : string -> string.

(** The period a date is filed under; [groupBy] is whatever [--group-by]
    was given, and everything but ["day"] and ["week"] groups by month. *)
Definition periodKey (groupBy dateStr : string) : string :=
  if String.eqb groupBy "week" then weekKey dateStr else monthKey dateStr.

(** [groupByPeriod] *)
Definition groupByPeriod (byDate : gmap string Rollup) (groupBy : string) : gmap string Rollup :=
  if String.eqb groupBy "day" then byDate
  else
    map_fold (fun dateStr data grouped =>
                upsert (periodKey groupBy dateStr) zeroRollup (mergeRollup data) grouped)
             ∅ byDate.

(** [outputCSV]: the lines it prints. The periods are the keys of
    [groupedData], so [groupedData[period]] is always there. *)
Definition outputCSV (billing : AggregatedBilling) (groupBy : string) : list string :=
  let groupedData := groupByPeriod (byDate billing) groupBy in
  let sortedPeriods := sortStrings (elements (dom groupedData : gset string)) in
  "period,minutes,billable_minutes,jobs"%string ::
  map (fun period =>
         let data := default zeroRollup (groupedData !! period) in
         period +:+ "," +:+ numberToString (r_minutes data) +:+ "," +:+
         numberToString (r_billableMinutes data) +:+ "," +:+ numberToString (r_jobCount data))
      sortedPeriods.

End Report.

(** ** Cache maintenance ([cache.ts])

    [readdirSync] lists the entries of a directory, files and directories,
    in an order of the system's choosing; [statSync] reports the length of a
    file, and for a directory a size of the system's choosing. A path
    [dir/name] is written as [path.join] returns it for a normalized [dir]
    and a plain [name]. *)

(** [s.endsWith(suffix)] *)
Fixpoint endsWith (suffix s : string) : bool :=
  (String.eqb s suffix ||
   match s with
   | EmptyString => false
   | String _ s' => endsWith suffix s'
   end)%bool.

(** What is left of [s] after the prefix [p]. *)
Fixpoint dropPrefix (p s : string) : option string :=
  match p, s with
  | EmptyString, _ => Some s
  | String _ _, EmptyString => None
  | String a p', String b s' => if Ascii.eqb a b then dropPrefix p' s' else None
  end.

Fixpoint has_slash (s : string) : bool :=
  match s with
  | EmptyString => false
  | String c s' => (Ascii.eqb c "/" || has_slash s')%bool
  end.

(** The name under which the path [p] is listed in [dir], if it is an entry
    of [dir]. *)
Definition entry_name (dir p : string) : option string :=
  match dropPrefix (dir +:+ "/") p with
  | Some name =>
      if (String.eqb name EmptyString || has_slash name)%bool then None else Some name
  | None => None
  end.

Definition readdirSync (dir : string) : io (list string) :=
  fun fs =>
    if bool_decide (dir ∈ directories fs)
    then (Normal (omap (entry_name dir) (elements (dom (files fs) ∪ directories fs))), fs)
    else (Throw IOError, fs).

(** [fs.statSync(p).size] *)
Definition statSync (directory_size : Z) (p : string) : io Z :=
  fun fs =>
    match files fs !! p with
    | Some content => (Normal (Z.of_nat (String.length content)), fs)
    | None =>
        if bool_decide (p ∈ directories fs) then (Normal directory_size, fs)
        else (Throw IOError, fs)
    end.

(** [{ filesDeleted, bytesFreed }] *)
Record Cleared : Type := {
  filesDeleted : Z;
  bytesFreed : Z
}.

(** [{ files, totalBytes, oldestAge }]; [files] is spelled [fileCount]. *)
Record CacheStats : Type := {
  fileCount : Z;
  totalBytes : Z;
  oldestAge : option Z
}.

Section Maintenance.

(** [getCacheStats] reads the entries whatever their data: [T] stands for
    any JSON value, and [JSON_parse] yields an entry for an object with a
    numeric [timestamp]. *)
Context {T : Type}.
Variable CACHE_DIR : string.
Variable JSON_parse : string -> option (CacheEntry T).
(** The size the system reports for a directory. *)
Variable directory_size : Z.

(** The loop of [clearCache]. The counters are locals declared outside the
    [try]: when a call throws, the [catch] leaves them as they are, so the
    loop returns them together with the file system it stopped at. *)
Fixpoint clear_loop (names : list string) (counters : Cleared) (fs : FileSystem)
  : Cleared * FileSystem :=
  match names with
  | [] => (counters, fs)
  | file :: rest =>
      if endsWith ".json" file then
        let filePath := CACHE_DIR +:+ "/" +:+ file in
        match statSync directory_size filePath fs with
        | (Throw _, fs1) => (counters, fs1)
        | (Normal size, fs1) =>
            let counted := {| filesDeleted := filesDeleted counters;
                              bytesFreed := bytesFreed counters + size |} in
            match unlinkSync filePath fs1 with
            | (Throw _, fs2) => (counted, fs2)
            | (Normal _, fs2) =>
                clear_loop rest {| filesDeleted := filesDeleted counted + 1;
                                   bytesFreed := bytesFreed counted |} fs2
            end
        end
      else clear_loop rest counters fs
  end.

Definition clearCache : io Cleared :=
  fun fs =>
    let counters := {| filesDeleted := 0; bytesFreed := 0 |} in
    match existsSync CACHE_DIR fs with
    | (Normal true, fs1) =>
        match readdirSync CACHE_DIR fs1 with
        | (Normal names, fs2) =>
            let (counted, fs3) := clear_loop names counters fs2 in
            (Normal counted, fs3)
        | (Throw _, fs2) => (Normal counters, fs2)
        end
    | (_, fs1) => (Normal counters, fs1)
    end.

(** The loop of [getCacheStats]; its state is [totalBytes] and
    [oldestTimestamp]. *)
Fixpoint stats_loop (names : list string) (totalBytes oldestTimestamp : Z) : io (Z * Z) :=
  match names with
  | [] => io_ret (totalBytes, oldestTimestamp)
  | file :: rest =>
      let filePath := CACHE_DIR +:+ "/" +:+ file in
      let+ size := statSync directory_size filePath in
      let+ oldest :=
        io_try
          (let+ content := readFileSync filePath in
           let+ entry := parseEntry JSON_parse content in
           io_ret (if timestamp entry <? oldestTimestamp then timestamp entry
                   else oldestTimestamp))
          oldestTimestamp in
      stats_loop rest (totalBytes + size) oldest
  end.

(** [now] and [later] are what the first and the second [Date.now()] of the
    call return. *)
Definition getCacheStats (now later : Z) : io CacheStats :=
  io_try
    (let+ present := existsSync CACHE_DIR in
     if negb present then io_ret {| fileCount := 0; totalBytes := 0; oldestAge := None |}
     else
       let+ names := readdirSync CACHE_DIR in
       let found := filter (fun f => endsWith ".json" f = true) names in
       let+ totals := stats_loop found 0 now in
       io_ret {| fileCount := Z.of_nat (length found);
                 totalBytes := fst totals;
                 oldestAge := if 0 <? Z.of_nat (length found)
                              then Some (later - snd totals) else None |})
    {| fileCount := 0; totalBytes := 0; oldestAge := None |}.

Definition getCacheDir : string := CACHE_DIR.

(** The [--clear-cache] command of [index.ts], lines 65-75, without its
    messages: [None] stands for "Cache is already empty". *)
Definition clearCacheCommand (now later : Z) : io (option Cleared) :=
  let+ stats := getCacheStats now later in
  if fileCount stats =? 0 then io_ret None
  else
    let+ cleared := clearCache in
    io_ret (Some cleared).

End Maintenance.

(** ** The fetch pipeline on a disk ([api.ts])

    [listOrgRepos], [fetchOrgWorkflowRuns] and [fetchAllJobs] with their
    calls to the cache carried out on an explicit disk. [now] is what
    [Date.now()] returns inside [getCache] and [later] inside [setCache]. *)

(** A computation that does not touch the disk. *)
Definition io_lift {A} (c : completion A) : io A := fun fs => (c, fs).

(** What [repos.listForOrg] reports of a repository, as far as the program
    reads it; [owner.login] is flattened. *)
Record RestRepository : Type := {
  rest_name : string;
  rest_full_name : string;
  rest_owner_login : string
}.

Definition DEFAULT_CACHE_TTL : Z := 1000 * 60 * 30.

Section OrgRepos.

Variable CACHE_DIR : string.
Variable md5hex : string -> string.
Variable JSON_stringify : CacheEntry (list Repository) -> string.
Variable JSON_parse : string -> option (CacheEntry (list Repository)).

(** [listOrgRepos]; [listForOrg] is the listing endpoint, which the record
    [Octokit] does not carry. A cached array, even an empty one, is truthy. *)
Definition listOrgRepos (listForOrg : string -> pages RestRepository) (org : string)
    (useCache : bool) (cacheTtlMs : Z) (now later : Z) : io (list Repository) :=
  let cacheKey := ["repos"; org] in
  let+ cached :=
    if useCache then getCache CACHE_DIR md5hex JSON_parse now cacheKey cacheTtlMs
    else io_ret None in
  match cached with
  | Some hit => io_ret hit
  | None =>
      let+ repos :=
        io_lift
          (for_await
             (fun repos data =>
                Normal (repos ++ map (fun repo => {| repo_name := rest_name repo;
                                                     full_name := rest_full_name repo;
                                                     owner := rest_owner_login repo |}) data))
             (listForOrg org) []) in
      let+ _ :=
        if useCache then setCache CACHE_DIR md5hex JSON_stringify later cacheKey repos cacheTtlMs
        else io_ret tt in
      io_ret repos
  end.

End OrgRepos.

Section Pipeline.

Variable CACHE_DIR : string.
Variable md5hex : string -> string.
Variable stringify_jobs : CacheEntry (list JobWithRepo) -> string.
Variable parse_jobs : string -> option (CacheEntry (list JobWithRepo)).

(** [['jobs', runs.map(r => r.id).sort().join(',')]] *)
Definition jobsCacheKey (runs : list WorkflowRun) : list string :=
  [ "jobs"; String.concat "," (sortStrings (map (fun r => numberToString (wr_id r)) runs)) ].



End Pipeline.

(** ** Authentication ([auth.js]) *)

(** [{ token, baseUrl }] *)
Record AuthConfig : Type := {
  token : string;
  baseUrl : string
}.

(** [process.env[name]] when it is truthy. *)
Definition env_var (env : gmap string string) (name : string) : option string :=
  match env !! name with
  | Some (String c s) => Some (String c s)
  | _ => None
  end.

Definition newline : string := String "010" EmptyString.

(** The message of the error [resolveToken] throws. *)
Definition no_token_message (host : option string) : string :=
  "Unable to get authentication token. Please either:" +:+ newline +:+
  "  1. Run 'gh auth login'" +:+
  (if Str.truthy host then " --hostname " +:+ default EmptyString host else EmptyString) +:+
  newline +:+
  "  2. Set GH_TOKEN environment variable" +:+ newline +:+
  "  3. Set GH_ENTERPRISE_TOKEN environment variable (for GHES)".

(** [url.replace(/\/+$/, '')] *)
Fixpoint normalizeBaseUrl (url : string) : string :=
  match url with
  | EmptyString => EmptyString
  | String c url' =>
      match normalizeBaseUrl url' with
      | EmptyString => if Ascii.eqb c "/" then EmptyString else String c EmptyString
      | rest => String c rest
      end
  end.

Definition resolveBaseUrl (env : gmap string string) (host : option string) : string :=
  match env_var env "GH_ENTERPRISE_URL" with
  | Some url => normalizeBaseUrl url
  | None =>
      match env_var env "GITHUB_API_URL" with
      | Some url => normalizeBaseUrl url
      | None =>
          if Str.truthy host then "https://" +:+ default EmptyString host +:+ "/api/v3"
          else "https://api.github.com"
      end
  end.

Section Auth.

(** [execSync(command, { encoding: 'utf-8', ... })]: what the command
    prints, or the error thrown when it fails. *)
Variable execSync : string -> completion string.

(** The command [resolveToken] runs. *)
Definition tokenCommand (host : option string) : string :=
  let args := if Str.truthy host then ["--hostname"; default EmptyString host] else [] in
  Str.trim ("gh auth token " +:+ String.concat " " args).

Definition resolveToken (env : gmap string string) (host : option string) : completion string :=
  match env_var env "GH_TOKEN" with
  | Some t => Normal t
  | None =>
      match env_var env "GH_ENTERPRISE_TOKEN" with
      | Some t => Normal t
      | None =>
          match env_var env "GITHUB_TOKEN" with
          | Some t => Normal t
          | None =>
              try_catch
                (let* output := execSync (tokenCommand host) in
                 let token := Str.trim output in
                 if negb (Str.truthy (Some token))
                 then Throw (Error "Empty token returned from gh auth")
                 else Normal token)
                (fun _ => Throw (Error (no_token_message host)))
          end
      end
  end.

Definition getAuth (env : gmap string string) (host : option string) : completion AuthConfig :=
  let* token := resolveToken env host in
  let baseUrl := resolveBaseUrl env host in
  Normal {| token := token; baseUrl := baseUrl |}.

End Auth.

(** * Vocabulary of the properties *)

(** ** Aggregation *)

(** The sum of [f] over the values of a keyed rollup. *)
Definition sum_over {V} (f : V -> Z) (m : gmap string V) : Z :=
  map_fold (fun _ v acc => f v + acc) 0 m.

(** The test the loops of [aggregateBilling] apply to a job. *)
Definition completed (j : JobWithRepo) : bool := Str.truthy (completed_at (base j)).

(** The sum of [f] over the four [byOS] buckets. *)
Definition sum_byOS (f : Rollup -> Z) (b : ByOS) : Z :=
  f (on_linux b) + f (on_windows b) + f (on_macos b) + f (on_unknown b).

(** The rollups of two results agree (everything but the [jobs] list). *)
Definition same_rollups (a b : AggregatedBilling) : Prop :=
  totalMinutes a = totalMinutes b /\
  totalBillableMinutes a = totalBillableMinutes b /\
  byOS a = byOS b /\
  byWorkflow a = byWorkflow b /\
  byRepo a = byRepo b /\
  byDate a = byDate b /\
  jobCount a = jobCount b /\
  runCount a = runCount b.

(** Two states of the first loop agree up to the [jobs] list. *)
Definition same_state (s t : LoopState) : Prop :=
  same_rollups (result s) (result t) /\ seenRunIds s = seenRunIds t.

(** What [aggregateBilling] returns once the first loop has left [st] and
    the third [runsByWorkflow]. *)
Definition finish (st : LoopState) (runsByWorkflow : gmap string (gset Z)) : AggregatedBilling :=
  let res := result st in
  {| totalMinutes := totalMinutes res;
     totalBillableMinutes := totalBillableMinutes res;
     byOS := byOS res;
     byWorkflow := apply_runCounts runsByWorkflow (byWorkflow res);
     byRepo := byRepo res;
     byDate := byDate res;
     jobCount := jobCount res;
     runCount := Z.of_nat (size (seenRunIds st));
     jobs := jobs res |}.

(** The state the first loop starts from. *)
Definition initialState : LoopState := {| result := initialResult; seenRunIds := ∅ |}.

(** The distinct run ids of a list of jobs. *)
Definition run_ids (js : list JobWithRepo) : gset Z :=
  list_to_set (map (fun j => run_id (base j)) js).

(** The completed jobs filed under one workflow key. *)
Definition completed_under (k : string) (js : list JobWithRepo) : list JobWithRepo :=
  filter (fun j => completed j = true /\ workflowKey j = k) js.


(** A billing record as [processJob] builds it. *)
Definition well_formed (b : BillingResult) : Prop :=
  br_billableMinutes b = br_durationMinutes b * MULTIPLIERS (br_os b).

(** The invariant of the first loop that ties billable minutes to minutes. *)
Definition weighted (res : AggregatedBilling) : Prop :=
  (forall o, r_billableMinutes (byOS_get (byOS res) o)
             = r_minutes (byOS_get (byOS res) o) * MULTIPLIERS o) /\
  totalMinutes res = sum_byOS r_minutes (byOS res) /\
  totalBillableMinutes res = sum_byOS r_billableMinutes (byOS res).


(** ** Sample data *)

Definition sample_job (id run : Z) (lbls : list string) (started : string)
    (finished : option string) (repo : string) (wf : option string) : JobWithRepo :=
  {| base := {| job_id := id; run_id := run; job_name := "build"; status := "completed";
                conclusion := Some "success"; started_at := started;
                completed_at := finished; labels := lbls;
                runner_name := None; runner_group_name := None |};
     repo_full_name := repo;
     workflow_name := wf |}.

(** 100 minutes on Linux, 50 on Windows, 10 on macOS, and a job still
    running. *)
Definition sample_jobs : list JobWithRepo :=
  [ sample_job 1 10 ["ubuntu-latest"] "2024-01-15T10:00:00Z" (Some "2024-01-15T11:40:00Z")
      "octo/app" (Some "CI");
    sample_job 2 10 ["windows-2022"] "2024-01-15T10:00:00Z" (Some "2024-01-15T10:49:01Z")
      "octo/app" (Some "CI");
    sample_job 3 11 ["self-hosted"; "macOS"] "2024-01-16T09:00:00Z" (Some "2024-01-16T09:10:00Z")
      "octo/lib" None;
    sample_job 4 12 ["ubuntu-latest"] "2024-01-16T09:00:00Z" None "octo/lib" (Some "CI") ].

Definition sample_result : AggregatedBilling :=
  match aggregateBilling isoTime sample_jobs [] with
  | Normal r => r
  | Throw _ => initialResult
  end.




(** ** OS detection as documented *)

(** Glob matching as documented: [*] stands for any sequence of characters,
    every other character for itself up to case, and the pattern has to cover
    the whole label. *)
Fixpoint globMatches (p label : string) : bool :=
  match p with
  | EmptyString => match label with EmptyString => true | _ => false end
  | String c p' =>
      if Ascii.eqb c "*" then
        (fix star (l : string) : bool :=
           (globMatches p' l ||
            match l with
            | EmptyString => false
            | String _ l' => star l'
            end)%bool) label
      else
        match label with
        | EmptyString => false
        | String d l' => (RegExp.eq_ignore_case c d && globMatches p' l')%bool
        end
  end.

(** [detectOS] as documented: the first custom mapping one of whose labels it
    globs, else the first built-in pattern some label contains, else
    [unknown]. *)
Definition detectOS_documented (labels : list string) (customMappings : list LabelMapping)
  : OSType :=
  let lowerLabels := map Str.toLowerCase labels in
  match List.find (fun m => existsb (globMatches (pattern m)) lowerLabels) customMappings with
  | Some m => os m
  | None =>
      match List.find (fun m => existsb (Str.includes (pattern m)) lowerLabels)
              DEFAULT_PATTERNS with
      | Some m => os m
      | None => unknown
      end
  end.








(** A label with a line feed between [a] and [b]. *)
Definition two_line_label : string := String "a" (String "010" (String "b" EmptyString)).

(** ** Listings *)

(** The page arrived. *)
Definition arrived {X} (p : completion (list X)) : bool :=
  match p with
  | Normal _ => true
  | Throw _ => false
  end.

(** Every item of the pages that arrived. *)
Definition page_items {X} (ps : pages X) : list X :=
  flat_map (fun p => match p with Normal data => data | Throw _ => [] end) ps.

(** The batch as the design document describes it: the run's name with
    ["unknown"] in place of a missing one. *)
Definition named_or_unknown (run : WorkflowRun) (j : JobWithRepo) : Prop :=
  repo_full_name j = repository_full_name run /\
  workflow_name j = Some (Str.or_else (wr_name run) "unknown").

(** What one run contributes to [fetchAllJobs]. *)
Definition jobs_of_run (octokit : Octokit) (run : WorkflowRun) : list JobWithRepo :=
  let ps := listJobsForWorkflowRun octokit (owner_of (repository_full_name run))
              (repo_of (repository_full_name run)) (wr_id run) in
  map (fun job => {| base := job; repo_full_name := repository_full_name run;
                     workflow_name := wr_name run |})
      (if forallb arrived ps
       then filter (fun job => Str.truthy (completed_at job) = true) (page_items ps)
       else []).

(** A client that knows one repository with an unnamed run of two jobs, one
    of them still running; every other listing is rejected with 404, for
    jobs after a first page has arrived. *)
Definition finished_job : WorkflowJob :=
  {| job_id := 1; run_id := 20; job_name := "build"; status := "completed";
     conclusion := Some "success"; started_at := "2024-01-15T10:00:00Z";
     completed_at := Some "2024-01-15T10:05:00Z"; labels := ["ubuntu-latest"];
     runner_name := None; runner_group_name := None |}.

Definition running_job : WorkflowJob :=
  {| job_id := 2; run_id := 20; job_name := "test"; status := "in_progress";
     conclusion := None; started_at := "2024-01-15T10:00:00Z";
     completed_at := None; labels := ["ubuntu-latest"];
     runner_name := None; runner_group_name := None |}.

Definition unnamed_run : WorkflowRun :=
  {| wr_id := 20; wr_name := None; wr_status := Some "completed";
     wr_conclusion := Some "success"; created_at := "2024-01-15T09:59:00Z";
     run_started_at := None; repository_name := "app";
     repository_full_name := "octo/app" |}.

Definition deleted_run : WorkflowRun :=
  {| wr_id := 21; wr_name := Some "CI"; wr_status := Some "completed";
     wr_conclusion := Some "success"; created_at := "2024-01-15T09:59:00Z";
     run_started_at := None; repository_name := "gone";
     repository_full_name := "octo/gone" |}.

(** What an earlier version of the tool may have left in the cache. *)
Definition stale_cached_job : JobWithRepo :=
  {| base := running_job; repo_full_name := "octo/app"; workflow_name := Some "CI" |}.

Definition sample_octokit : Octokit :=
  {| listWorkflowRunsForRepo := fun owner repo _ =>
       if (String.eqb owner "octo" && String.eqb repo "app")%bool
       then [Normal [unnamed_run]] else [Throw (HttpError 404)];
     listJobsForWorkflowRun := fun owner repo runId =>
       if runId =? 20 then [Normal [finished_job]; Normal [running_job]]
       else [Normal [finished_job]; Throw (HttpError 404)] |}.

(** ** Cache *)

(** The file that holds the entry of a key. *)
Definition entry_path (CACHE_DIR : string) (md5hex : string -> string)
    (keyParts : list string) : string :=
  getCachePath CACHE_DIR (getCacheKey md5hex keyParts).

(** A small printer and reader for [CacheEntry<number>], in the layout
    [JSON.stringify] gives the entry. *)
Module Json.

Definition quote : string := Str.dquote.

Definition key (name : string) : string := quote +:+ name +:+ quote +:+ ":".

Definition number (z : Z) : string := NilZero.string_of_int (Z.to_int z).

Definition stringify (e : CacheEntry Z) : string :=
  "{" +:+ key "version" +:+ quote +:+ version e +:+ quote +:+ ","
      +:+ key "timestamp" +:+ number (timestamp e) +:+ ","
      +:+ key "ttlMs" +:+ number (ttlMs e) +:+ ","
      +:+ key "data" +:+ number (data e) +:+ "}".

Fixpoint strip (p s : string) : option string :=
  match p, s with
  | EmptyString, _ => Some s
  | String _ _, EmptyString => None
  | String a p', String b s' => if Ascii.eqb a b then strip p' s' else None
  end.

Fixpoint span (P : ascii -> bool) (s : string) : string * string :=
  match s with
  | EmptyString => (EmptyString, EmptyString)
  | String c s' =>
      if P c then let (taken, rest) := span P s' in (String c taken, rest)
      else (EmptyString, s)
  end.

Definition numeric (c : ascii) : bool :=
  (Ascii.eqb c "-" || (Nat.leb 48 (nat_of_ascii c) && Nat.leb (nat_of_ascii c) 57))%bool.

Definition read_number (s : string) : option (Z * string) :=
  let (digits, rest) := span numeric s in
  match NilZero.int_of_string digits with
  | Some i => Some (Z.of_int i, rest)
  | None => None
  end.

Definition parse (s : string) : option (CacheEntry Z) :=
  match strip ("{" +:+ key "version" +:+ quote) s with
  | None => None
  | Some s1 =>
      let (v, s2) := span (fun c => negb (Ascii.eqb c "034")) s1 in
      match strip (quote +:+ "," +:+ key "timestamp") s2 with
      | None => None
      | Some s3 =>
          match read_number s3 with
          | None => None
          | Some (t, s4) =>
              match strip ("," +:+ key "ttlMs") s4 with
              | None => None
              | Some s5 =>
                  match read_number s5 with
                  | None => None
                  | Some (ttl, s6) =>
                      match strip ("," +:+ key "data") s6 with
                      | None => None
                      | Some s7 =>
                          match read_number s7 with
                          | Some (d, "}"%string) =>
                              Some {| version := v; timestamp := t; ttlMs := ttl; data := d |}
                          | _ => None
                          end
                      end
                  end
              end
          end
      end
  end.

(** A stand-in for the digest: the sum of the character codes, in decimal. *)
Fixpoint code_sum (s : string) : nat :=
  match s with
  | EmptyString => 0
  | String c s' => nat_of_ascii c + code_sum s'
  end.

Definition checksum (s : string) : string := NilEmpty.string_of_uint (Nat.to_uint (code_sum s)).

End Json.

(** A cache directory and a disk with nothing on it. *)
Definition home_cache : string := "/home/octo/.gh-forecast-cache".

Definition empty_disk : FileSystem := {| directories := ∅; files := ∅ |}.

(** ** Rollups recomputed from the billed jobs *)

(** The sum of [f] over a list of billing records. *)
Definition sum_of (f : BillingResult -> Z) (bs : list BillingResult) : Z :=
  foldr (fun b acc => f b + acc) 0 bs.

(** A keyed rollup has an entry for a key exactly when some job is filed
    under it. *)
Definition if_any {A B} (summary : list A -> B) (l : list A) : option B :=
  match l with
  | [] => None
  | _ :: _ => Some (summary l)
  end.

(** The billing records filed under the key [k]. *)
Definition billed_under (key : JobWithRepo -> string) (k : string) (bs : list BillingResult)
  : list BillingResult :=
  filter (fun b => key (br_job b) = k) bs.

Definition rollup_of (bs : list BillingResult) : Rollup :=
  {| r_minutes := sum_of br_durationMinutes bs;
     r_billableMinutes := sum_of br_billableMinutes bs;
     r_jobCount := Z.of_nat (length bs) |}.

(** The name a job's workflow goes by in [byRepo]. *)
Definition workflow_label (b : BillingResult) : string :=
  Str.or_else (workflow_name (br_job b)) "unknown".

Definition repo_rollup_of (bs : list BillingResult) : RepoRollup :=
  {| repo_minutes := sum_of br_durationMinutes bs;
     repo_billableMinutes := sum_of br_billableMinutes bs;
     repo_jobCount := Z.of_nat (length bs);
     repo_workflows := list_to_set (map workflow_label bs) |}.

Definition workflow_rollup_of (runs : Z) (bs : list BillingResult) : WorkflowRollup :=
  {| wf_minutes := sum_of br_durationMinutes bs;
     wf_billableMinutes := sum_of br_billableMinutes bs;
     wf_jobCount := Z.of_nat (length bs);
     wf_runCount := runs |}.

(** The rollups of a result are those recomputed from its [jobs]. *)
Definition recomputed (r : AggregatedBilling) : Prop :=
  (forall o, byOS_get (byOS r) o = rollup_of (filter (fun b => br_os b = o) (jobs r))) /\
  (forall k, byDate r !! k = if_any rollup_of (billed_under dateKey k (jobs r))) /\
  (forall k, byRepo r !! k = if_any repo_rollup_of (billed_under repo_full_name k (jobs r))) /\
  (forall k, byWorkflow r !! k
             = if_any (fun bs => workflow_rollup_of
                                   (Z.of_nat (size (run_ids (map br_job bs)))) bs)
                      (billed_under workflowKey k (jobs r))).

(** ** Label mappings as written on the command line *)







(** ** Case *)





(** Some lower-cased label contains [sub]. *)
Definition some_label_includes (sub : string) (labels : list string) : bool :=
  existsb (Str.includes sub) (map Str.toLowerCase labels).

(** ** Patterns that do not compile *)



(** ** Repositories *)



(** A listing of two repositories on two pages, and one whose second page
    is refused. *)
Definition sample_org_listing (org : string) : pages RestRepository :=
  [ Normal [ {| rest_name := "app"; rest_full_name := "octo/app"; rest_owner_login := "octo" |} ];
    Normal [ {| rest_name := "lib"; rest_full_name := "octo/lib"; rest_owner_login := "octo" |} ] ].

Definition failing_org_listing (org : string) : pages RestRepository :=
  [ Normal [ {| rest_name := "app"; rest_full_name := "octo/app"; rest_owner_login := "octo" |} ];
    Throw (HttpError 502) ].

(** ** Periods *)

(** The dates of a breakdown that fall into one period. *)
Definition dates_of (weekKey monthKey : string -> string) (groupBy period : string)
    (byDate : gmap string Rollup) : gmap string Rollup :=
  filter (fun entry => periodKey weekKey monthKey groupBy (fst entry) = period) byDate.

Definition rollup_sum (m : gmap string Rollup) : Rollup :=
  {| r_minutes := sum_over r_minutes m;
     r_billableMinutes := sum_over r_billableMinutes m;
     r_jobCount := sum_over r_jobCount m |}.

(** The entry of a period into which the days [sel] fall. *)
Definition period_entry (sel : gmap string Rollup) : option Rollup :=
  if decide (sel = ∅) then None else Some (rollup_sum sel).

(** The first seven characters of a date, [yyyy-MM]. *)
Definition month_of (dateStr : string) : string := String.substring 0 7 dateStr.

(** The row [outputCSV] prints for a period. *)
Definition csv_row (period : string) (data : Rollup) : string :=
  period +:+ "," +:+ numberToString (r_minutes data) +:+ "," +:+
  numberToString (r_billableMinutes data) +:+ "," +:+ numberToString (r_jobCount data).

(** ** Numbers *)

(** The double is [NaN], [Infinity] or [-Infinity]. *)
Definition not_finite (x : float) : bool :=
  match Prim2SF x with
  | S754_nan | S754_infinity _ => true
  | _ => false
  end.

(** ** Cache files *)

(** The path is that of a [.json] entry of the cache directory. *)
Definition is_cache_file (CACHE_DIR p : string) : bool :=
  match entry_name CACHE_DIR p with
  | Some name => endsWith ".json" name
  | None => false
  end.

(** The cache files on a disk. *)
Definition cache_files (CACHE_DIR : string) (fs : FileSystem) : gmap string string :=
  filter (fun entry => is_cache_file CACHE_DIR (fst entry) = true) (files fs).

(** The files on a disk that are not cache files. *)
Definition other_files (CACHE_DIR : string) (fs : FileSystem) : gmap string string :=
  filter (fun entry => is_cache_file CACHE_DIR (fst entry) <> true) (files fs).

Definition file_size (content : string) : Z := Z.of_nat (String.length content).

(** No directory sits where a cache file would. *)
Definition no_directory_among_cache_files (CACHE_DIR : string) (fs : FileSystem) : Prop :=
  forall p, p ∈ directories fs -> is_cache_file CACHE_DIR p = false.

(** The names a listing of the cache directory holds: those of the files and
    directories right inside it. *)
Definition listed (CACHE_DIR : string) (fs : FileSystem) (file : string) : Prop :=
  file <> EmptyString /\ has_slash file = false /\
  (is_Some (files fs !! (CACHE_DIR +:+ "/" +:+ file)) \/
   CACHE_DIR +:+ "/" +:+ file ∈ directories fs).

(** A disk with one cache entry and one file that is none. *)
Definition sample_disk : FileSystem :=
  {| directories := {[ home_cache ]};
     files := {[ "/home/octo/.gh-forecast-cache/795.json"%string :=
                   Json.stringify {| version := "1"; timestamp := 1000; ttlMs := 1800000;
                                     data := 42 |};
                 "/home/octo/notes.json"%string := "{}"%string ]} |}.

(** ** Environments *)


(** A string of [n] slashes. *)
Fixpoint slashes (n : nat) : string :=
  match n with
  | O => EmptyString
  | S n' => String "/" (slashes n')
  end.

(** A [gh] that is logged in to one enterprise host only. *)
Definition sample_gh (command : string) : completion string :=
  if String.eqb command "gh auth token --hostname github.example.com"
  then Normal ("ghp_example" +:+ newline)
  else Throw IOError.

(** ** Tactics *)


(** * Properties *)

(** ** First checks *)

Example detectOS_ex1 :
  detectOS ["self-hosted"; "runner-42-prod"] [ {| pattern := "runner-*"; os := linux |} ]
  = Normal linux.
Proof. vm_compute. reflexivity. Qed.

Example detectOS_ex2 : detectOS ["self-hosted"; "runner-42-prod"] [] = Normal unknown.
Proof. vm_compute. reflexivity. Qed.

Example detectOS_ex3 :
  detectOS ["runner"] [ {| pattern := "runner-?"; os := macos |} ] = Normal macos.
Proof. vm_compute. reflexivity. Qed.

Example detectOS_ex4 :
  detectOS ["x"] [ {| pattern := "?"; os := macos |} ] = Throw SyntaxError.
Proof. vm_compute. reflexivity. Qed.

Example detectOS_ex5 : detectOS ["Darwin-ARM"] [] = Normal windows.
Proof. vm_compute. reflexivity. Qed.

Example parseLabelMappings_readme :
  parseLabelMappings "runner-*:linux, mac-*:macos,win-*:Windows"
  = Normal [ {| pattern := "runner-*"; os := linux |};
             {| pattern := "mac-*"; os := macos |};
             {| pattern := "win-*"; os := windows |} ].
Proof. vm_compute. reflexivity. Qed.

Example parseLabelMappings_rejects : exists e, parseLabelMappings "runner-*:bsd" = Throw e.
Proof. eexists. vm_compute. reflexivity. Qed.

Example isoTime_epoch : isoTime "1970-01-01T00:00:00Z" = 0.
Proof. reflexivity. Qed.

Example isoTime_2024 : isoTime "2024-01-15T10:00:00Z" = 1705312800000.
Proof. reflexivity. Qed.

Example isoTime_leap : isoTime "2024-03-01T00:00:01Z" = 1709251201000.
Proof. reflexivity. Qed.

(** ** OS detection *)
















(** C3. On the inputs of the design document [detectOS] answers as described:
    the custom mapping [runner-*] wins, and without it nothing matches. But a
    [?] in a custom pattern, which [parseLabelMappings] lets through, is not
    matched literally: [matchesPattern] leaves it unescaped, so it makes the
    character before it optional, or makes the pattern a syntax error when
    there is none; and [*] does not match across a line terminator. *)
Theorem detectOS_question_mark_is_a_quantifier :
  let runner_any := {| pattern := "runner-*"; os := linux |} in
  let runner_q := {| pattern := "runner-?"; os := macos |} in
  let lone_q := {| pattern := "?"; os := linux |} in
  let a_any_b := {| pattern := "a*b"; os := windows |} in
  (detectOS ["self-hosted"; "runner-42-prod"] [runner_any] = Normal linux /\
   detectOS ["self-hosted"; "runner-42-prod"] [] = Normal unknown) /\
  (parseLabelMappings "runner-?:macos" = Normal [runner_q] /\
   detectOS ["runner"] [runner_q] = Normal macos /\
   detectOS_documented ["runner"] [runner_q] = unknown) /\
  (detectOS ["runner-?"] [runner_q] = Normal unknown /\
   detectOS_documented ["runner-?"] [runner_q] = macos) /\
  (detectOS ["runner-42-prod"] [lone_q] = Throw SyntaxError) /\
  (detectOS [two_line_label] [a_any_b] = Normal unknown /\
   detectOS_documented [two_line_label] [a_any_b] = windows).
Proof. vm_compute. repeat split; reflexivity. Qed.

(** ** Keyed rollups and loops *)

Lemma upsert_lookup {V} k (init : V) f m k' :
  upsert k init f m !! k' = if decide (k = k') then Some (f (default init (m !! k))) else m !! k'.
Proof. unfold upsert. apply lookup_insert. Qed.

Lemma upsert_comm {V} k1 k2 (init : V) f1 f2 m :
  (k1 = k2 -> forall x, f1 (f2 x) = f2 (f1 x)) ->
  upsert k1 init f1 (upsert k2 init f2 m) = upsert k2 init f2 (upsert k1 init f1 m).
Proof.
  intros Hf. apply map_eq. intros k.
  rewrite !upsert_lookup.
  destruct (decide (k1 = k)) as [->|], (decide (k2 = k)) as [->|];
    repeat first [rewrite decide_True by done | rewrite decide_False by done]; simpl; try done.
  by rewrite Hf.
Qed.

Lemma sum_over_empty {V} (f : V -> Z) : sum_over f ∅ = 0.
Proof. apply map_fold_empty. Qed.

Lemma sum_over_insert_fresh {V} (f : V -> Z) k v (m : gmap string V) :
  m !! k = None -> sum_over f (<[k := v]> m) = f v + sum_over f m.
Proof.
  intros H. unfold sum_over. rewrite map_fold_insert_L; [done | intros; lia | done].
Qed.

Lemma sum_over_insert {V} (f : V -> Z) k v (m : gmap string V) :
  sum_over f (<[k := v]> m) = sum_over f m - from_option f 0 (m !! k) + f v.
Proof.
  destruct (m !! k) as [old|] eqn:E; simpl.
  - rewrite <- (insert_delete_eq m k v).
    rewrite <- (insert_id m k old E) at 2.
    rewrite <- (insert_delete_eq m k old).
    rewrite !sum_over_insert_fresh by apply lookup_delete_eq. lia.
  - rewrite sum_over_insert_fresh by done. lia.
Qed.

Lemma sum_over_upsert {V} (f : V -> Z) k init g (m : gmap string V) :
  f init = 0 ->
  sum_over f (upsert k init g m)
  = sum_over f m - f (default init (m !! k)) + f (g (default init (m !! k))).
Proof.
  intros H0. unfold upsert. rewrite sum_over_insert.
  destruct (m !! k); simpl; lia.
Qed.

#[local] Instance same_state_equiv : Equivalence same_state.
Proof.
  split.
  - intros s. repeat split; reflexivity.
  - intros s t H. unfold same_state, same_rollups in *. intuition congruence.
  - intros s t u H1 H2. unfold same_state, same_rollups in *. intuition congruence.
Qed.

Lemma record_job_proper b s t : same_state s t -> same_state (record_job s b) (record_job t b).
Proof.
  intros (H & Hs). destruct H as (H1 & H2 & H3 & H4 & H5 & H6 & H7 & H8).
  unfold same_state, same_rollups, record_job; simpl.
  rewrite H1, H2, H3, H4, H5, H6, H7, H8, Hs. repeat split; reflexivity.
Qed.

Lemma byOS_set_comm b o1 o2 (f1 f2 : Rollup -> Rollup) :
  (forall x, f1 (f2 x) = f2 (f1 x)) ->
  byOS_set (byOS_set b o1 (f1 (byOS_get b o1))) o2
           (f2 (byOS_get (byOS_set b o1 (f1 (byOS_get b o1))) o2))
  = byOS_set (byOS_set b o2 (f2 (byOS_get b o2))) o1
           (f1 (byOS_get (byOS_set b o2 (f2 (byOS_get b o2))) o1)).
Proof.
  intros H. destruct o1, o2; simpl; try reflexivity; by rewrite H.
Qed.

Lemma addRollup_comm d1 b1 d2 b2 x :
  addRollup d1 b1 (addRollup d2 b2 x) = addRollup d2 b2 (addRollup d1 b1 x).
Proof. unfold addRollup; simpl. f_equal; lia. Qed.

Lemma addWorkflowRollup_comm d1 b1 d2 b2 x :
  addWorkflowRollup d1 b1 (addWorkflowRollup d2 b2 x)
  = addWorkflowRollup d2 b2 (addWorkflowRollup d1 b1 x).
Proof. unfold addWorkflowRollup; simpl. f_equal; lia. Qed.

Lemma addRepoRollup_comm d1 b1 w1 d2 b2 w2 x :
  addRepoRollup d1 b1 w1 (addRepoRollup d2 b2 w2 x)
  = addRepoRollup d2 b2 w2 (addRepoRollup d1 b1 w1 x).
Proof. unfold addRepoRollup; simpl. f_equal; try lia. set_solver. Qed.

Lemma record_job_comm s b1 b2 :
  same_state (record_job (record_job s b1) b2) (record_job (record_job s b2) b1).
Proof.
  unfold same_state, same_rollups, record_job; simpl.
  repeat split; try lia.
  - apply byOS_set_comm. intros. apply addRollup_comm.
  - apply upsert_comm. intros _ x. apply addWorkflowRollup_comm.
  - apply upsert_comm. intros _ x. apply addRepoRollup_comm.
  - apply upsert_comm. intros _ x. apply addRollup_comm.
  - set_solver.
Qed.

Lemma foldl_proper {S X} (R : relation S) (f : S -> X -> S) :
  (forall x s t, R s t -> R (f s x) (f t x)) ->
  forall l s t, R s t -> R (foldl f s l) (foldl f t l).
Proof. intros Hf l. induction l as [|x l IH]; simpl; auto. Qed.

Lemma foldl_permutation {S X} (R : relation S) `{!Equivalence R} (f : S -> X -> S) :
  (forall x s t, R s t -> R (f s x) (f t x)) ->
  (forall s x y, R (f (f s x) y) (f (f s y) x)) ->
  forall l l', l ≡ₚ l' -> forall s, R (foldl f s l) (foldl f s l').
Proof.
  intros Hp Hc l l' HP.
  induction HP as [|x l l' _ IH|x y l|l1 l2 l3 _ IH1 _ IH2]; intros s; simpl.
  - reflexivity.
  - apply IH.
  - apply foldl_proper; auto.
  - etransitivity; [apply IH1 | apply IH2].
Qed.

Lemma record_jobs_permutation bs bs' s :
  bs ≡ₚ bs' -> same_state (foldl record_job s bs) (foldl record_job s bs').
Proof.
  intros HP. apply (foldl_permutation same_state record_job); auto.
  - intros x a b. apply record_job_proper.
  - intros a x y. apply record_job_comm.
Qed.

Lemma collect_run_comm m j1 j2 :
  collect_run (collect_run m j1) j2 = collect_run (collect_run m j2) j1.
Proof.
  unfold collect_run.
  destruct (negb (Str.truthy (completed_at (base j1)))),
    (negb (Str.truthy (completed_at (base j2)))); try reflexivity.
  apply upsert_comm. intros _ x. set_solver.
Qed.

Lemma collect_runs_permutation js js' m :
  js ≡ₚ js' -> foldl collect_run m js = foldl collect_run m js'.
Proof.
  intros HP. apply (foldl_permutation eq collect_run); auto.
  - intros; congruence.
  - intros; apply collect_run_comm.
Qed.


Lemma map_completion_Forall2 {X Y} (f : X -> completion Y) xs ys :
  map_completion f xs = Normal ys <-> Forall2 (fun x y => f x = Normal y) xs ys.
Proof.
  revert ys. induction xs as [|x xs IH]; simpl; intros ys.
  - split; intros H; [inversion H; constructor | by inversion H].
  - split.
    + intros H. destruct (f x) eqn:E; simpl in H; [|done].
      destruct (map_completion f xs) eqn:E'; simpl in H; [|done].
      inversion H; subst. constructor; [done|]. by apply IH.
    + intros H. inversion H as [|? y ? ys' Hy Hys]; subst.
      rewrite Hy. simpl. apply IH in Hys. rewrite Hys. reflexivity.
Qed.


Lemma map_completion_permutation {X Y} (f : X -> completion Y) xs xs' ys :
  xs ≡ₚ xs' -> map_completion f xs = Normal ys ->
  exists ys', map_completion f xs' = Normal ys' /\ ys ≡ₚ ys'.
Proof.
  intros HP. revert ys.
  induction HP as [|x l l' _ IH|x y l|l1 l2 l3 _ IH1 _ IH2]; intros ys H.
  - exists ys. split; [done|reflexivity].
  - simpl in *. destruct (f x); simpl in *; [|done].
    destruct (map_completion f l) as [bs|]; simpl in *; [|done].
    destruct (IH bs eq_refl) as (bs' & -> & HP').
    inversion H; subst. eexists; split; [reflexivity|]. by constructor.
  - simpl in *. destruct (f x), (f y); simpl in *; try done.
    destruct (map_completion f l) as [bs|]; simpl in *; [|done].
    inversion H; subst. eexists; split; [reflexivity|]. apply perm_swap.
  - destruct (IH1 ys H) as (ys2 & H2 & P2).
    destruct (IH2 ys2 H2) as (ys3 & H3 & P3).
    exists ys3. split; [done|]. by etransitivity.
Qed.

Section BillingFacts.

Variable getTime : string -> Z.

Lemma for_each_aggregate_step maps js st :
  for_each (aggregate_step getTime maps) js st =
  let* bs := map_completion (fun j => processJob getTime j maps)
               (filter (fun j => completed j = true) js) in
  Normal (foldl record_job st bs).
Proof.
  revert st. induction js as [|j js IH]; intros st; simpl; [reflexivity|].
  unfold aggregate_step at 1. fold (completed j).
  rewrite filter_cons. case_decide as E.
  - rewrite E. simpl.
    destruct (processJob getTime j maps) as [b|e]; simpl; [|reflexivity].
    rewrite IH. destruct (map_completion _ _); reflexivity.
  - apply not_true_is_false in E. rewrite E. simpl. apply IH.
Qed.

Lemma aggregateBilling_unfold js maps :
  aggregateBilling getTime js maps =
  let* bs := map_completion (fun j => processJob getTime j maps)
               (filter (fun j => completed j = true) js) in
  Normal (finish (foldl record_job initialState bs) (foldl collect_run ∅ js)).
Proof.
  unfold aggregateBilling. fold initialState. rewrite for_each_aggregate_step.
  destruct (map_completion _ _); reflexivity.
Qed.

Lemma aggregateBilling_Normal js maps r :
  aggregateBilling getTime js maps = Normal r ->
  exists bs,
    map_completion (fun j => processJob getTime j maps)
      (filter (fun j => completed j = true) js) = Normal bs /\
    r = finish (foldl record_job initialState bs) (foldl collect_run ∅ js).
Proof.
  rewrite aggregateBilling_unfold. destruct (map_completion _ _) as [bs|]; simpl; [|done].
  intros H. inversion H. eauto.
Qed.

End BillingFacts.

Lemma foldl_counter {S X} (q : S -> Z) (f : S -> X -> S) :
  (forall s x, q (f s x) = q s + 1) ->
  forall l s, q (foldl f s l) = q s + Z.of_nat (length l).
Proof.
  intros Hq l. induction l as [|x l IH]; intros s; simpl; [lia|].
  rewrite IH, Hq. lia.
Qed.


Lemma record_job_sum_byDate st b :
  sum_over r_jobCount (byDate (result (record_job st b)))
  = sum_over r_jobCount (byDate (result st)) + 1.
Proof. unfold record_job; simpl. rewrite sum_over_upsert by done. simpl. lia. Qed.




(** ** Billing aggregation *)

Lemma record_jobs_jobs bs st :
  jobs (result (foldl record_job st bs)) = jobs (result st) ++ bs.
Proof.
  revert st. induction bs as [|b bs IH]; intros st; simpl.
  - by rewrite app_nil_r.
  - rewrite IH. simpl. by rewrite <- app_assoc.
Qed.

Section BillingClaims.

Variable getTime : string -> Z.

Lemma processJob_Normal j maps b :
  processJob getTime j maps = Normal b ->
  br_job b = j /\
  br_durationMinutes b
    = calculateDurationMinutes getTime (started_at (base j)) (completed_at (base j)) /\
  br_multiplier b = MULTIPLIERS (br_os b) /\
  br_billableMinutes b = br_durationMinutes b * MULTIPLIERS (br_os b) /\
  detectOS (labels (base j)) maps = Normal (br_os b).
Proof.
  unfold processJob. destruct (detectOS _ _) as [o|]; simpl; [|done].
  intros H. inversion H; subst; simpl. auto.
Qed.

Lemma processed_jobs maps js bs :
  map_completion (fun j => processJob getTime j maps) js = Normal bs ->
  map br_job bs = js.
Proof.
  rewrite map_completion_Forall2. induction 1 as [|j b js bs H _ IH]; simpl; [done|].
  apply processJob_Normal in H as (-> & _). by rewrite IH.
Qed.




(** C5. Permuting the input leaves [totalMinutes], [totalBillableMinutes],
    [jobCount], [runCount], [byOS], [byWorkflow] (run counts included),
    [byRepo] (workflow sets included) and [byDate] unchanged; the list of
    billed jobs is permuted accordingly. *)
Theorem aggregateBilling_order_independent jobList jobList' maps r :
  jobList ≡ₚ jobList' ->
  aggregateBilling getTime jobList maps = Normal r ->
  exists r',
    aggregateBilling getTime jobList' maps = Normal r' /\
    same_rollups r r' /\
    jobs r ≡ₚ jobs r'.
Proof.
  intros HP H.
  destruct (aggregateBilling_Normal _ _ _ _ H) as (bs & Hbs & ->).
  assert (HPf : filter (fun j => completed j = true) jobList
                ≡ₚ filter (fun j => completed j = true) jobList') by by rewrite HP.
  destruct (map_completion_permutation _ _ _ _ HPf Hbs) as (bs' & Hbs' & HPb).
  rewrite aggregateBilling_unfold, Hbs'. simpl. eexists. split; [reflexivity|].
  destruct (record_jobs_permutation bs bs' initialState HPb) as (Hr & Hs).
  destruct Hr as (H1 & H2 & H3 & H4 & H5 & H6 & H7 & H8).
  rewrite <- (collect_runs_permutation _ _ ∅ HP).
  unfold same_rollups, finish; simpl.
  rewrite H1, H2, H3, H4, H5, H6, H7, Hs, !record_jobs_jobs. simpl.
  repeat split; done.
Qed.






Lemma record_job_weighted st b :
  well_formed b -> weighted (result st) -> weighted (result (record_job st b)).
Proof.
  unfold well_formed, weighted, record_job, sum_byOS. intros Hb (Ho & Hm & Hbm). simpl.
  pose proof (Ho linux); pose proof (Ho windows); pose proof (Ho macos); pose proof (Ho unknown).
  simpl in *.
  split; [|split].
  - intros o. destruct (br_os b), o; simpl in *; lia.
  - destruct (br_os b); simpl; lia.
  - destruct (br_os b); simpl; lia.
Qed.

Lemma record_jobs_weighted bs st :
  Forall well_formed bs -> weighted (result st) -> weighted (result (foldl record_job st bs)).
Proof.
  intros H. revert st. induction H as [|b bs Hb _ IH]; intros st Hst; simpl; [done|].
  apply IH. by apply record_job_weighted.
Qed.

Lemma estimateCost_exact_unfold res :
  (estimateCost_exact res ==
   inject_Z (r_minutes (on_linux (byOS res))) * (8 # 1000)
   + inject_Z (r_minutes (on_windows (byOS res))) * (16 # 1000)
   + inject_Z (r_minutes (on_macos (byOS res))) * (8 # 100)
   + inject_Z (r_minutes (on_unknown (byOS res))) * (8 # 1000))%Q.
Proof.
  unfold estimateCost_exact, estimateCost_in, byOS_entries. simpl.
  rewrite Qplus_0_l. reflexivity.
Qed.

Lemma weighted_cost res :
  weighted res ->
  (estimateCost_exact res == inject_Z (totalBillableMinutes res) * (8 # 1000))%Q.
Proof.
  intros (Ho & _ & Hb). rewrite estimateCost_exact_unfold, Hb. unfold sum_byOS.
  pose proof (Ho linux) as Hl; pose proof (Ho windows) as Hw;
    pose proof (Ho macos) as Hm; pose proof (Ho unknown) as Hu.
  simpl in Hl, Hw, Hm, Hu. rewrite Hl, Hw, Hm, Hu.
  unfold Qeq, Qplus, Qmult, inject_Z; simpl. lia.
Qed.


End BillingClaims.

(** ** Run counts *)

(** Each key's run count is set on its own: the order in which the [Map] of
    run sets is traversed does not matter. *)
Lemma apply_runCounts_lookup runs (bw : gmap string WorkflowRollup) k :
  apply_runCounts runs bw !! k
  = match runs !! k with
    | Some ids => set_runCount (Z.of_nat (size ids)) <$> bw !! k
    | None => bw !! k
    end.
Proof.
  unfold apply_runCounts. revert k.
  apply (map_fold_weak_ind
           (fun acc (m : gmap string (gset Z)) =>
              forall k, acc !! k = match m !! k with
                                   | Some ids => set_runCount (Z.of_nat (size ids)) <$> bw !! k
                                   | None => bw !! k
                                   end)).
  - intros k. by rewrite lookup_empty.
  - intros i ids m acc Hi IH k.
    pose proof (IH i) as Hacc. rewrite Hi in Hacc.
    destruct (decide (i = k)) as [->|Hne].
    + rewrite lookup_insert_eq, Hacc.
      destruct (bw !! k) as [r|]; simpl; [by rewrite lookup_insert_eq | by rewrite Hacc].
    + rewrite lookup_insert_ne by done. rewrite <- IH.
      destruct (acc !! i); [by rewrite lookup_insert_ne | done].
Qed.

Lemma seen_runs bs st :
  seenRunIds (foldl record_job st bs) = run_ids (map br_job bs) ∪ seenRunIds st.
Proof.
  revert st. induction bs as [|b bs IH]; intros st; simpl.
  - unfold run_ids. simpl. set_solver.
  - rewrite IH. unfold run_ids. simpl. set_solver.
Qed.

Lemma collected_runs_lookup js m k :
  foldl collect_run m js !! k
  = match completed_under k js with
    | [] => m !! k
    | sel => Some (run_ids sel ∪ default ∅ (m !! k))
    end.
Proof.
  revert m. induction js as [|j js IH]; intros m; [reflexivity|].
  simpl. rewrite IH. unfold completed_under. rewrite filter_cons.
  unfold collect_run. fold (completed j).
  destruct (decide (completed j = true /\ workflowKey j = k)) as [[Hc <-]|Hn].
  - rewrite Hc. simpl. rewrite upsert_lookup, decide_True by done. simpl.
    destruct (filter _ js) as [|j' sel]; f_equal; unfold run_ids; simpl; set_solver.
  - destruct (completed j) eqn:Hc; simpl; [|reflexivity].
    rewrite upsert_lookup, decide_False by tauto. reflexivity.
Qed.

Lemma no_runCount_before_second_pass bs st :
  map_Forall (fun _ w => wf_runCount w = 0) (byWorkflow (result st)) ->
  map_Forall (fun _ w => wf_runCount w = 0) (byWorkflow (result (foldl record_job st bs))).
Proof.
  revert st. induction bs as [|b bs IH]; intros st H; [done|].
  simpl. apply IH. unfold record_job; simpl. unfold upsert.
  apply map_Forall_insert_2; [|done]. simpl.
  destruct (byWorkflow (result st) !! workflowKey (br_job b)) as [w|] eqn:E; simpl; [|done].
  by apply (H _ _ E).
Qed.

Section RunCounts.

Variable getTime : string -> Z.

(** X2. [runCount] is the number of distinct runs among the completed jobs,
    and the [runCount] of a workflow the number of distinct runs among the
    completed jobs filed under its key. *)
Theorem run_counts_are_distinct_runs jobList maps r :
  aggregateBilling getTime jobList maps = Normal r ->
  runCount r = Z.of_nat (size (run_ids (filter (fun j => completed j = true) jobList))) /\
  (forall k w, byWorkflow r !! k = Some w ->
               wf_runCount w = Z.of_nat (size (run_ids (completed_under k jobList)))).
Proof.
  intros H. destruct (aggregateBilling_Normal _ _ _ _ H) as (bs & Hbs & ->).
  pose proof (processed_jobs getTime _ _ _ Hbs) as Hjobs.
  unfold finish; simpl. split.
  - rewrite seen_runs, Hjobs. simpl. do 2 f_equal. set_solver.
  - intros k w. rewrite apply_runCounts_lookup, collected_runs_lookup, lookup_empty. simpl.
    pose proof (no_runCount_before_second_pass bs initialState (map_Forall_empty _)) as Hz.
    destruct (completed_under k jobList) as [|j sel] eqn:Esel.
    + intros Hw. rewrite (Hz _ _ Hw). reflexivity.
    + destruct (byWorkflow (result (foldl record_job initialState bs)) !! k); [|done].
      simpl. intros Hw. inversion Hw. simpl. do 2 f_equal. set_solver.
Qed.

End RunCounts.

(** ** Concrete runs *)

Lemma sample_result_returned : aggregateBilling isoTime sample_jobs [] = Normal sample_result.
Proof. vm_compute. reflexivity. Qed.

Example sample_result_minutes :
  map (fun o => r_minutes (byOS_get (byOS sample_result) o)) [linux; windows; macos; unknown]
  = [100; 50; 10; 0]
  /\ totalMinutes sample_result = 160
  /\ totalBillableMinutes sample_result = 300
  /\ jobCount sample_result = 3
  /\ runCount sample_result = 2.
Proof. vm_compute. auto. Qed.

Example sample_result_workflows :
  byWorkflow sample_result !! "octo/app/CI"
  = Some {| wf_minutes := 150; wf_billableMinutes := 200; wf_jobCount := 2; wf_runCount := 1 |}
  /\ byWorkflow sample_result !! "octo/lib/unknown"
  = Some {| wf_minutes := 10; wf_billableMinutes := 100; wf_jobCount := 1; wf_runCount := 1 |}.
Proof. vm_compute. auto. Qed.



(** The quotient of a one-second job as the program computes it, in
    binary64, lies in (0, 1]: [Math.ceil] gives 1 there too. *)
Example one_second_in_binary64 :
  let q := (1000 / 1000 / 60)%float in
  PrimFloat.ltb 0 q = true /\ PrimFloat.leb q 1 = true.
Proof. vm_compute. auto. Qed.


Lemma aggregateBilling_order_independent_witness :
  sample_jobs ≡ₚ rev sample_jobs /\
  exists r',
    aggregateBilling isoTime (rev sample_jobs) [] = Normal r' /\
    same_rollups sample_result r' /\
    jobs sample_result ≡ₚ jobs r'.
Proof.
  split; [apply Permutation_rev|].
  exact (aggregateBilling_order_independent isoTime sample_jobs (rev sample_jobs) []
           sample_result (Permutation_rev _) sample_result_returned).
Defined.



Lemma run_counts_are_distinct_runs_witness :
  runCount sample_result = 2 /\
  (forall k w, byWorkflow sample_result !! k = Some w ->
               wf_runCount w = Z.of_nat (size (run_ids (completed_under k sample_jobs)))).
Proof.
  exact (run_counts_are_distinct_runs isoTime sample_jobs [] sample_result
           sample_result_returned).
Defined.

(** ** Cost estimation *)





(** ** Durations are not clamped *)


(** ** The fetch pipeline *)

Lemma for_await_collect {X} (P : X -> Prop) `{!forall x, Decision (P x)} (ps : pages X) acc :
  forallb arrived ps = true ->
  for_await (fun items data => Normal (items ++ filter P data)) ps acc
  = Normal (acc ++ filter P (page_items ps)).
Proof.
  revert acc. induction ps as [|[data|e] ps IH]; intros acc; simpl; [| |done].
  - by rewrite app_nil_r.
  - intros Hps. rewrite IH by done. unfold page_items. simpl.
    by rewrite filter_app, app_assoc.
Qed.

Lemma for_await_throws {X} (P : X -> Prop) `{!forall x, Decision (P x)} (ps : pages X) acc :
  forallb arrived ps = false ->
  exists e, for_await (fun items data => Normal (items ++ filter P data)) ps acc = Throw e.
Proof.
  revert acc. induction ps as [|[data|e] ps IH]; intros acc; simpl; [done| |eauto].
  intros Hps. apply IH, Hps.
Qed.

Lemma listing_result {X} (P : X -> Prop) `{!forall x, Decision (P x)} (ps : pages X) :
  try_catch (for_await (fun items data => Normal (items ++ filter P data)) ps [])
            (fun _ => Normal [])
  = Normal (if forallb arrived ps then filter P (page_items ps) else []).
Proof.
  destruct (forallb arrived ps) eqn:E.
  - rewrite for_await_collect by done. reflexivity.
  - destruct (for_await_throws P ps [] E) as (e & ->). reflexivity.
Qed.

Lemma throw_not_arrived {X} (ps : pages X) e :
  Throw e ∈ ps -> forallb arrived ps = false.
Proof.
  intros H. apply not_true_is_false. rewrite forallb_forall. intros Hall.
  apply list_elem_of_In in H. specialize (Hall _ H). discriminate.
Qed.

Lemma listRunJobs_result octokit owner repo runId :
  listRunJobs octokit owner repo runId
  = Normal (let ps := listJobsForWorkflowRun octokit owner repo runId in
            if forallb arrived ps
            then filter (fun job => Str.truthy (completed_at job) = true) (page_items ps)
            else []).
Proof. apply listing_result. Qed.

Lemma listWorkflowRuns_result getTime toISOString octokit owner repo since until :
  listWorkflowRuns getTime toISOString octokit owner repo since until
  = Normal (let ps := listWorkflowRunsForRepo octokit owner repo
                        (Str.split0 "T" (toISOString since) +:+ ".." +:+
                         Str.split0 "T" (toISOString until)) in
            if forallb arrived ps
            then filter (fun run => since <= getTime (created_at run) /\
                                    getTime (created_at run) <= until) (page_items ps)
            else []).
Proof. apply listing_result. Qed.

Lemma gather_total {X Y} (task : X -> completion (list Y)) (f : X -> list Y) xs :
  (forall x, task x = Normal (f x)) -> gather task xs = Normal (flat_map f xs).
Proof.
  intros H. induction xs as [|x xs IH]; simpl; [reflexivity|].
  by rewrite H, IH.
Qed.

Lemma fetchRunJobs_result octokit run :
  fetchRunJobs octokit run = Normal (jobs_of_run octokit run).
Proof. unfold fetchRunJobs. rewrite listRunJobs_result. reflexivity. Qed.

Lemma fetchAllJobs_fetched octokit runs useCache cached :
  useCache = false \/ cached = None ->
  fetchAllJobs octokit runs useCache cached = Normal (flat_map (jobs_of_run octokit) runs).
Proof.
  intros H. unfold fetchAllJobs.
  rewrite (gather_total _ (jobs_of_run octokit)) by apply fetchRunJobs_result.
  destruct H as [-> | ->]; [reflexivity | by destruct useCache].
Qed.

(** C6, amended. On a cache miss every job [fetchAllJobs] returns carries the
    full name of its run's repository as [repo_full_name] and the run's name,
    unchanged, as [workflow_name] ([null] when the run has none); each comes
    from a page of its run's listing and has a [completed_at] that is not
    [null]. On a cache hit the cached list is returned as it is. The
    ["unknown"] fallback is applied by [aggregateBilling], in the keys it
    builds for jobs without a workflow name. *)
Theorem fetchAllJobs_denormalizes octokit runs useCache cached :
  (useCache = false \/ cached = None ->
   exists fetched,
     fetchAllJobs octokit runs useCache cached = Normal fetched /\
     Forall (fun j =>
               exists run,
                 run ∈ runs /\
                 repo_full_name j = repository_full_name run /\
                 workflow_name j = wr_name run /\
                 base j ∈ page_items (listJobsForWorkflowRun octokit
                                        (owner_of (repository_full_name run))
                                        (repo_of (repository_full_name run)) (wr_id run)) /\
                 Str.truthy (completed_at (base j)) = true /\
                 completed_at (base j) <> None) fetched) /\
  (forall hit, useCache = true -> cached = Some hit ->
               fetchAllJobs octokit runs useCache cached = Normal hit) /\
  (forall j, workflow_name j = None ->
             workflowKey j = repo_full_name j +:+ "/unknown").
Proof.
  split; [|split; [|by intros j H; unfold workflowKey; rewrite H]].
  - intros H. rewrite fetchAllJobs_fetched by done. eexists. split; [reflexivity|].
    apply Forall_forall. intros j Hj.
    apply list_elem_of_In, in_flat_map in Hj as (run & Hrun & Hj).
    exists run. split; [by apply list_elem_of_In|].
    unfold jobs_of_run in Hj. apply in_map_iff in Hj as (job & <- & Hjob). simpl.
    destruct (forallb arrived _); [|by destruct Hjob].
    apply list_elem_of_In, list_elem_of_filter in Hjob as (Ht & Hin).
    repeat split; try done.
    intros E. rewrite E in Ht. discriminate.
  - intros hit -> ->. reflexivity.
Qed.

(** C7. When a request of the listing throws, [listWorkflowRuns] and
    [listRunJobs] return the empty list; neither ever throws; and in
    [fetchOrgWorkflowRuns] and [fetchAllJobs] an entity whose listing throws
    contributes nothing while the batch returns what the other entities
    yield. *)
Theorem listing_errors_are_swallowed :
  (forall getTime toISOString octokit owner repo since until e,
     Throw e ∈ listWorkflowRunsForRepo octokit owner repo
                 (Str.split0 "T" (toISOString since) +:+ ".." +:+
                  Str.split0 "T" (toISOString until)) ->
     listWorkflowRuns getTime toISOString octokit owner repo since until = Normal []) /\
  (forall octokit owner repo runId e,
     Throw e ∈ listJobsForWorkflowRun octokit owner repo runId ->
     listRunJobs octokit owner repo runId = Normal []) /\
  (forall getTime toISOString octokit owner repo since until,
     exists runs,
       listWorkflowRuns getTime toISOString octokit owner repo since until = Normal runs) /\
  (forall octokit owner repo runId,
     exists found, listRunJobs octokit owner repo runId = Normal found) /\
  (forall getTime toISOString octokit before failing after since until e,
     Throw e ∈ listWorkflowRunsForRepo octokit (owner failing) (repo_name failing)
                 (Str.split0 "T" (toISOString since) +:+ ".." +:+
                  Str.split0 "T" (toISOString until)) ->
     exists runs,
       fetchOrgWorkflowRuns getTime toISOString octokit (before ++ failing :: after)
         since until false None = Normal runs /\
       fetchOrgWorkflowRuns getTime toISOString octokit (before ++ after)
         since until false None = Normal runs) /\
  (forall octokit before failing after e,
     Throw e ∈ listJobsForWorkflowRun octokit (owner_of (repository_full_name failing))
                 (repo_of (repository_full_name failing)) (wr_id failing) ->
     exists found,
       fetchAllJobs octokit (before ++ failing :: after) false None = Normal found /\
       fetchAllJobs octokit (before ++ after) false None = Normal found).
Proof.
  split; [|split; [|split; [|split; [|split]]]].
  - intros g t o ow rp s u e H. rewrite listWorkflowRuns_result. simpl.
    by rewrite (throw_not_arrived _ _ H).
  - intros o ow rp id e H. rewrite listRunJobs_result. simpl.
    by rewrite (throw_not_arrived _ _ H).
  - intros g t o ow rp s u. rewrite listWorkflowRuns_result. eauto.
  - intros o ow rp id. rewrite listRunJobs_result. eauto.
  - intros g t o before failing after s u e H. unfold fetchOrgWorkflowRuns.
    rewrite !(gather_total _ _ _
                (fun r => listWorkflowRuns_result g t o (owner r) (repo_name r) s u)).
    eexists. split; [reflexivity|]. f_equal.
    rewrite !flat_map_app. simpl. by rewrite (throw_not_arrived _ _ H).
  - intros o before failing after e H.
    rewrite !fetchAllJobs_fetched by auto.
    eexists. split; [reflexivity|]. f_equal.
    assert (E : jobs_of_run o failing = []).
    { unfold jobs_of_run. by rewrite (throw_not_arrived _ _ H). }
    rewrite !flat_map_app. simpl. by rewrite E.
Qed.

(** C6 as worded fails: the job of an unnamed run comes back with a [null]
    [workflow_name], not with ["unknown"]; and on a cache hit the cached list
    comes back whatever it holds. *)
Lemma unnamed_run_keeps_null_name :
  ~ (forall fetched,
       fetchAllJobs sample_octokit [unnamed_run] false None = Normal fetched ->
       Forall (named_or_unknown unnamed_run) fetched) /\
  ~ (forall fetched,
       fetchAllJobs sample_octokit [unnamed_run] true (Some [stale_cached_job])
       = Normal fetched ->
       Forall (fun j => completed_at (base j) <> None) fetched).
Proof.
  split.
  - intros H. specialize (H _ eq_refl). vm_compute in H.
    apply Forall_inv in H. destruct H as [_ H]. discriminate H.
  - intros H. specialize (H _ eq_refl).
    apply Forall_inv in H. by apply H.
Qed.

Lemma fetchAllJobs_denormalizes_witness :
  exists fetched,
    fetchAllJobs sample_octokit [unnamed_run] false None = Normal fetched /\
    Forall (fun j =>
              exists run,
                run ∈ [unnamed_run] /\
                repo_full_name j = repository_full_name run /\
                workflow_name j = wr_name run /\
                base j ∈ page_items (listJobsForWorkflowRun sample_octokit
                                       (owner_of (repository_full_name run))
                                       (repo_of (repository_full_name run)) (wr_id run)) /\
                Str.truthy (completed_at (base j)) = true /\
                completed_at (base j) <> None) fetched.
Proof.
  exact (proj1 (fetchAllJobs_denormalizes sample_octokit [unnamed_run] false None)
           (or_introl eq_refl)).
Defined.

Example fetchAllJobs_sample :
  fetchAllJobs sample_octokit [unnamed_run; deleted_run] false None
  = Normal [ {| base := finished_job; repo_full_name := "octo/app"; workflow_name := None |} ].
Proof. vm_compute. reflexivity. Qed.

Lemma listing_errors_are_swallowed_witness :
  Throw (HttpError 404) ∈ listJobsForWorkflowRun sample_octokit "octo" (Some "gone") 21 /\
  listRunJobs sample_octokit "octo" (Some "gone") 21 = Normal [].
Proof.
  assert (H : Throw (HttpError 404)
              ∈ listJobsForWorkflowRun sample_octokit "octo" (Some "gone") 21)
    by (right; left).
  split; [exact H|].
  exact (proj1 (proj2 listing_errors_are_swallowed) sample_octokit "octo" (Some "gone") 21 _ H).
Defined.

(** ** The cache store *)



Section CacheFacts.

Context {T : Type}.
Variable CACHE_DIR : string.
Variable md5hex : string -> string.
Variable JSON_stringify : CacheEntry T -> string.
Variable JSON_parse : string -> option (CacheEntry T).

Lemma ensureCacheDir_files fs :
  exists fs', ensureCacheDir CACHE_DIR fs = (Normal tt, fs') /\
              files fs' = files fs /\
              directories fs ⊆ directories fs' /\
              (CACHE_DIR ∈ directories fs' \/ is_Some (files fs' !! CACHE_DIR)).
Proof.
  unfold ensureCacheDir, io_bind, existsSync, mkdirSync, io_ret.
  case_bool_decide as E; simpl.
  - exists fs. repeat split; auto.
  - eexists. split; [reflexivity|]. simpl. repeat split; [set_solver | left; set_solver].
Qed.

Lemma ensureCacheDir_idle fs :
  CACHE_DIR ∈ directories fs \/ is_Some (files fs !! CACHE_DIR) ->
  ensureCacheDir CACHE_DIR fs = (Normal tt, fs).
Proof.
  intros H. unfold ensureCacheDir, io_bind, existsSync, io_ret.
  by rewrite bool_decide_eq_true_2.
Qed.

Lemma setCache_writes now keyParts d ttl fs :
  exists fs',
    setCache CACHE_DIR md5hex JSON_stringify now keyParts d ttl fs = (Normal tt, fs') /\
    files fs' = <[entry_path CACHE_DIR md5hex keyParts :=
                    JSON_stringify {| version := CACHE_VERSION; timestamp := now;
                                      ttlMs := ttl; data := d |}]> (files fs) /\
    (CACHE_DIR ∈ directories fs' \/ is_Some (files fs !! CACHE_DIR)).
Proof.
  destruct (ensureCacheDir_files fs) as (fs0 & E0 & Hf & _ & Hd).
  unfold setCache, io_try, io_bind. rewrite E0. unfold writeFileSync. simpl.
  eexists. split; [reflexivity|]. simpl. rewrite Hf. split; [reflexivity|].
  by rewrite <- Hf.
Qed.

(** [getCache] after its call to [ensureCacheDir], which leaves [fs0]. *)
Lemma getCache_unfold now keyParts ttl fs :
  exists fs0,
    files fs0 = files fs /\
    (CACHE_DIR ∈ directories fs \/ is_Some (files fs !! CACHE_DIR) -> fs0 = fs) /\
    getCache CACHE_DIR md5hex JSON_parse now keyParts ttl fs
    = match files fs !! entry_path CACHE_DIR md5hex keyParts with
      | None => (Normal None, fs0)
      | Some content =>
          match JSON_parse content with
          | None => (Normal None, fs0)
          | Some entry =>
              if negb (String.eqb (version entry) CACHE_VERSION) || (now - timestamp entry >? ttl)
              then (Normal None,
                    {| directories := directories fs0;
                       files := delete (entry_path CACHE_DIR md5hex keyParts) (files fs0) |})
              else (Normal (Some (data entry)), fs0)
          end
      end.
Proof.
  destruct (ensureCacheDir_files fs) as (fs0 & E0 & Hf & _ & _).
  exists fs0. split; [exact Hf|]. split.
  { intros Hd. rewrite (ensureCacheDir_idle fs Hd) in E0. congruence. }
  unfold getCache, io_try, io_bind. rewrite E0. rewrite <- Hf.
  fold (entry_path CACHE_DIR md5hex keyParts).
  unfold existsSync, readFileSync, parseEntry, unlinkSync.
  destruct (files fs0 !! entry_path CACHE_DIR md5hex keyParts) as [content|] eqn:E; simpl.
  - rewrite bool_decide_eq_true_2 by (right; eauto). simpl. rewrite E.
    destruct (JSON_parse content) as [entry|]; simpl; [|reflexivity].
    destruct (String.eqb (version entry) CACHE_VERSION); simpl.
    + destruct (now - timestamp entry >? ttl); simpl; [by rewrite E|reflexivity].
    + by rewrite E.
  - case_bool_decide as B; simpl; [|reflexivity].
    destruct B as [B | B]; [|by destruct B]. by rewrite E.
Qed.


End CacheFacts.

Example cache_file_written :
  files (snd (setCache home_cache Json.checksum Json.stringify 1000 ["jobs"; "20,21"] 42
                1800000 empty_disk))
  !! "/home/octo/.gh-forecast-cache/795.json"
  = Some (Json.stringify {| version := "1"; timestamp := 1000; ttlMs := 1800000; data := 42 |}).
Proof. vm_compute. reflexivity. Qed.


Example cache_entry_expired :
  let fs1 := snd (setCache home_cache Json.checksum Json.stringify 1000 ["jobs"; "20,21"] 42
                    1800000 empty_disk) in
  exists fs2,
    getCache home_cache Json.checksum Json.parse 1801001 ["jobs"; "20,21"] 1800000 fs1
    = (Normal None, fs2) /\
    files fs2 = ∅.
Proof. eexists. split; vm_compute; reflexivity. Qed.

(** ** Totals and rollups recomputed from the billed jobs *)

Lemma sum_of_app f bs1 bs2 : sum_of f (bs1 ++ bs2) = sum_of f bs1 + sum_of f bs2.
Proof. induction bs1 as [|b bs1 IH]; simpl; [reflexivity|]. rewrite IH. lia. Qed.

Lemma foldl_sum_of {S} (q : S -> Z) (g : BillingResult -> Z) (f : S -> BillingResult -> S) :
  (forall s x, q (f s x) = q s + g x) ->
  forall l s, q (foldl f s l) = q s + sum_of g l.
Proof.
  intros Hq l. induction l as [|x l IH]; intros s; simpl; [lia|].
  rewrite IH, Hq. lia.
Qed.

Lemma sum_over_apply_runCounts (f : WorkflowRollup -> Z) runs bw :
  (forall n w, f (set_runCount n w) = f w) ->
  sum_over f (apply_runCounts runs bw) = sum_over f bw.
Proof.
  intros Hf. unfold apply_runCounts.
  apply (map_fold_weak_ind (fun acc (_ : gmap string (gset Z)) => sum_over f acc = sum_over f bw)).
  - reflexivity.
  - intros i ids m acc _ IH. destruct (acc !! i) as [w|] eqn:E; [|exact IH].
    rewrite sum_over_insert, E. simpl. rewrite Hf. lia.
Qed.

Lemma if_any_default {A B} (summary : list A -> B) l :
  default (summary []) (if_any summary l) = summary l.
Proof. by destruct l. Qed.

Lemma if_any_snoc {A B} (summary : list A -> B) l x :
  if_any summary (l ++ [x]) = Some (summary (l ++ [x])).
Proof. by destruct l. Qed.

(** One step of a keyed rollup kept in step with the list of billed jobs. *)
Lemma upsert_billed_under {V} (key : JobWithRepo -> string) (summary : list BillingResult -> V)
    (g : V -> V) (m : gmap string V) bs b :
  (forall l, g (summary l) = summary (l ++ [b])) ->
  (forall k, m !! k = if_any summary (billed_under key k bs)) ->
  forall k, upsert (key (br_job b)) (summary []) g m !! k
            = if_any summary (billed_under key k (bs ++ [b])).
Proof.
  intros Hg Hm k. rewrite upsert_lookup. unfold billed_under.
  rewrite filter_app, filter_cons, filter_nil.
  destruct (decide (key (br_job b) = k)) as [E|E].
  - rewrite if_any_snoc, <- Hg. f_equal. f_equal. subst k.
    rewrite Hm. apply if_any_default.
  - rewrite app_nil_r. apply Hm.
Qed.

Lemma rollup_of_snoc bs b :
  addRollup (br_durationMinutes b) (br_billableMinutes b) (rollup_of bs) = rollup_of (bs ++ [b]).
Proof.
  unfold addRollup, rollup_of; simpl. rewrite !sum_of_app, length_app; simpl.
  f_equal; lia.
Qed.

Lemma repo_rollup_of_snoc bs b :
  addRepoRollup (br_durationMinutes b) (br_billableMinutes b) (workflow_label b)
    (repo_rollup_of bs)
  = repo_rollup_of (bs ++ [b]).
Proof.
  unfold addRepoRollup, repo_rollup_of; simpl. rewrite !sum_of_app, length_app, map_app; simpl.
  f_equal; try lia. rewrite list_to_set_app_L. simpl. set_solver.
Qed.

Lemma workflow_rollup_of_snoc bs b :
  addWorkflowRollup (br_durationMinutes b) (br_billableMinutes b) (workflow_rollup_of 0 bs)
  = workflow_rollup_of 0 (bs ++ [b]).
Proof.
  unfold addWorkflowRollup, workflow_rollup_of; simpl. rewrite !sum_of_app, length_app; simpl.
  f_equal; lia.
Qed.

(** The invariant of the first loop of [aggregateBilling]. *)
Lemma record_jobs_recomputed bs :
  let res := result (foldl record_job initialState bs) in
  (forall o, byOS_get (byOS res) o = rollup_of (filter (fun b => br_os b = o) bs)) /\
  (forall k, byDate res !! k = if_any rollup_of (billed_under dateKey k bs)) /\
  (forall k, byRepo res !! k = if_any repo_rollup_of (billed_under repo_full_name k bs)) /\
  (forall k, byWorkflow res !! k = if_any (workflow_rollup_of 0) (billed_under workflowKey k bs)).
Proof.
  induction bs as [|b bs IH] using rev_ind.
  - simpl. repeat split; try (intros k; apply lookup_empty). by intros [].
  - rewrite foldl_app. simpl. simpl in IH. destruct IH as (Hos & Hdate & Hrepo & Hwf).
    set (st := foldl record_job initialState bs) in *.
    split; [|split; [|split]].
    + intros o. rewrite filter_app, filter_cons, filter_nil.
      destruct (decide (br_os b = o)) as [E|E].
      * rewrite <- rollup_of_snoc, <- Hos. subst o. by destruct (br_os b).
      * rewrite app_nil_r, <- Hos. by destruct (br_os b), o.
    + apply (upsert_billed_under dateKey rollup_of); [intros; apply rollup_of_snoc | exact Hdate].
    + apply (upsert_billed_under repo_full_name repo_rollup_of);
        [intros; apply repo_rollup_of_snoc | exact Hrepo].
    + apply (upsert_billed_under workflowKey (workflow_rollup_of 0));
        [intros; apply workflow_rollup_of_snoc | exact Hwf].
Qed.

Lemma billed_under_jobs key k bs :
  map br_job (billed_under key k bs) = filter (fun j => key j = k) (map br_job bs).
Proof.
  unfold billed_under. induction bs as [|b bs IH]; [reflexivity|].
  simpl. rewrite !filter_cons. destruct (decide (key (br_job b) = k)); simpl; by rewrite IH.
Qed.

Lemma completed_under_filter k js :
  filter (fun j => workflowKey j = k) (filter (fun j => completed j = true) js)
  = completed_under k js.
Proof.
  unfold completed_under. induction js as [|j js IH]; [reflexivity|].
  rewrite !filter_cons.
  destruct (decide (completed j = true)) as [Hc|Hc].
  - rewrite filter_cons. destruct (decide (workflowKey j = k)) as [Hk|Hk].
    + rewrite decide_True by done. by rewrite IH.
    + rewrite decide_False by tauto. exact IH.
  - rewrite decide_False by tauto. exact IH.
Qed.

Lemma finish_totals bs runs :
  let r := finish (foldl record_job initialState bs) runs in
  (totalMinutes r = sum_of br_durationMinutes (jobs r) /\
   sum_byOS r_minutes (byOS r) = totalMinutes r /\
   sum_over r_minutes (byDate r) = totalMinutes r /\
   sum_over repo_minutes (byRepo r) = totalMinutes r /\
   sum_over wf_minutes (byWorkflow r) = totalMinutes r) /\
  (totalBillableMinutes r = sum_of br_billableMinutes (jobs r) /\
   sum_byOS r_billableMinutes (byOS r) = totalBillableMinutes r /\
   sum_over r_billableMinutes (byDate r) = totalBillableMinutes r /\
   sum_over repo_billableMinutes (byRepo r) = totalBillableMinutes r /\
   sum_over wf_billableMinutes (byWorkflow r) = totalBillableMinutes r) /\
  (jobCount r = Z.of_nat (length (jobs r)) /\
   sum_over wf_jobCount (byWorkflow r) = jobCount r) /\
  sum_over r_jobCount (byDate r) = jobCount r.
Proof.
  unfold finish; simpl. rewrite record_jobs_jobs. simpl.
  rewrite !sum_over_apply_runCounts by reflexivity.
  assert (Hsum : forall (q : LoopState -> Z) g,
             q initialState = 0 ->
             (forall s x, q (record_job s x) = q s + g x) ->
             q (foldl record_job initialState bs) = sum_of g bs).
  { intros q g H0 Hq. rewrite (foldl_sum_of q g) by exact Hq. lia. }
  assert (Hos : forall (f : Rollup -> Z) g,
             f zeroRollup = 0 ->
             (forall d b x, f (addRollup d b x) = f x + g d b) ->
             forall s x, sum_byOS f (byOS (result (record_job s x)))
                         = sum_byOS f (byOS (result s))
                           + g (br_durationMinutes x) (br_billableMinutes x)).
  { intros f g _ Hf s x. unfold record_job, sum_byOS; simpl.
    destruct (br_os x); simpl; rewrite Hf; lia. }
  assert (Hup : forall V (f : V -> Z) init (h : V -> V) k (m : gmap string V) c,
             f init = 0 -> (forall x, f (h x) = f x + c) ->
             sum_over f (upsert k init h m) = sum_over f m + c).
  { intros V f init h k m c H0 Hh. rewrite sum_over_upsert by exact H0. rewrite Hh. lia. }
  rewrite (Hsum (fun s => totalMinutes (result s)) br_durationMinutes) by reflexivity.
  rewrite (Hsum (fun s => totalBillableMinutes (result s)) br_billableMinutes) by reflexivity.
  rewrite (foldl_counter (fun s => jobCount (result s))) by reflexivity.
  repeat split.
  - apply (Hsum (fun s => sum_byOS r_minutes (byOS (result s)))); [reflexivity|].
    apply (Hos r_minutes (fun d _ => d)); reflexivity.
  - apply (Hsum (fun s => sum_over r_minutes (byDate (result s)))); [reflexivity|].
    intros s x. apply Hup; reflexivity.
  - apply (Hsum (fun s => sum_over repo_minutes (byRepo (result s)))); [reflexivity|].
    intros s x. apply Hup; reflexivity.
  - apply (Hsum (fun s => sum_over wf_minutes (byWorkflow (result s)))); [reflexivity|].
    intros s x. apply Hup; reflexivity.
  - apply (Hsum (fun s => sum_byOS r_billableMinutes (byOS (result s)))); [reflexivity|].
    apply (Hos r_billableMinutes (fun _ b => b)); reflexivity.
  - apply (Hsum (fun s => sum_over r_billableMinutes (byDate (result s)))); [reflexivity|].
    intros s x. apply Hup; reflexivity.
  - apply (Hsum (fun s => sum_over repo_billableMinutes (byRepo (result s)))); [reflexivity|].
    intros s x. apply Hup; reflexivity.
  - apply (Hsum (fun s => sum_over wf_billableMinutes (byWorkflow (result s)))); [reflexivity|].
    intros s x. apply Hup; reflexivity.
  - rewrite (foldl_counter (fun s => sum_over wf_jobCount (byWorkflow (result s)))).
    + reflexivity.
    + intros s x. apply Hup; reflexivity.
  - rewrite (foldl_counter (fun s => sum_over r_jobCount (byDate (result s)))).
    + reflexivity.
    + apply record_job_sum_byDate.
Qed.

Section BillingTotals.

Variable getTime : string -> Z.

(** X3. In every result of [aggregateBilling], [totalMinutes] is the sum of
    the durations of the billed jobs and [totalBillableMinutes] the sum of
    their billable minutes, and each breakdown adds up to the totals: the
    four [byOS] buckets, the [byDate] keys, the [byRepo] keys and the
    [byWorkflow] keys each sum to [totalMinutes] and to
    [totalBillableMinutes], and the job counts of the [byWorkflow] keys sum
    to [jobCount]. *)
Theorem breakdowns_add_up_to_the_totals jobList maps r :
  aggregateBilling getTime jobList maps = Normal r ->
  (totalMinutes r = sum_of br_durationMinutes (jobs r) /\
   sum_byOS r_minutes (byOS r) = totalMinutes r /\
   sum_over r_minutes (byDate r) = totalMinutes r /\
   sum_over repo_minutes (byRepo r) = totalMinutes r /\
   sum_over wf_minutes (byWorkflow r) = totalMinutes r) /\
  (totalBillableMinutes r = sum_of br_billableMinutes (jobs r) /\
   sum_byOS r_billableMinutes (byOS r) = totalBillableMinutes r /\
   sum_over r_billableMinutes (byDate r) = totalBillableMinutes r /\
   sum_over repo_billableMinutes (byRepo r) = totalBillableMinutes r /\
   sum_over wf_billableMinutes (byWorkflow r) = totalBillableMinutes r) /\
  sum_over wf_jobCount (byWorkflow r) = jobCount r.
Proof.
  intros H. destruct (aggregateBilling_Normal _ _ _ _ H) as (bs & _ & ->).
  destruct (finish_totals bs (foldl collect_run ∅ jobList)) as (Hm & Hb & (_ & Hj) & _).
  auto.
Qed.

(** X4. Every rollup of a result of [aggregateBilling] can be recomputed from
    its [jobs] list: the [byOS] bucket of an OS, and the [byDate], [byRepo]
    and [byWorkflow] entry of a key, hold the summed minutes, summed billable
    minutes and number of the billed jobs with that OS or key; a key has an
    entry exactly when some billed job carries it; the [workflows] of a
    repository are the workflow names (["unknown"] for a missing one) of its
    billed jobs; and the [runCount] of a workflow is the number of distinct
    runs among its billed jobs. *)
Theorem rollups_recomputed_from_jobs jobList maps r :
  aggregateBilling getTime jobList maps = Normal r -> recomputed r.
Proof.
  intros H. destruct (aggregateBilling_Normal _ _ _ _ H) as (bs & Hbs & ->).
  pose proof (processed_jobs getTime _ _ _ Hbs) as Hjobs.
  destruct (record_jobs_recomputed bs) as (Hos & Hdate & Hrepo & Hwf).
  unfold recomputed, finish; simpl. rewrite record_jobs_jobs. simpl.
  split; [exact Hos|]. split; [exact Hdate|]. split; [exact Hrepo|].
  intros k. rewrite apply_runCounts_lookup, collected_runs_lookup, lookup_empty, Hwf.
  rewrite <- completed_under_filter, <- Hjobs, <- billed_under_jobs.
  destruct (billed_under workflowKey k bs) as [|b sel]; simpl; [reflexivity|].
  unfold set_runCount, workflow_rollup_of; simpl. by rewrite (right_id_L ∅ (∪)).
Qed.

End BillingTotals.

Lemma rollups_recomputed_from_jobs_witness : recomputed sample_result.
Proof.
  exact (rollups_recomputed_from_jobs isoTime sample_jobs [] _ sample_result_returned).
Defined.

Lemma breakdowns_add_up_to_the_totals_witness :
  totalMinutes sample_result = 160 /\
  sum_over r_minutes (byDate sample_result) = totalMinutes sample_result /\
  sum_over wf_jobCount (byWorkflow sample_result) = jobCount sample_result.
Proof.
  destruct (breakdowns_add_up_to_the_totals isoTime sample_jobs [] _ sample_result_returned)
    as [[_ [_ [Hd _]]] [_ Hw]].
  split; [vm_compute; reflexivity|]. split; [exact Hd | exact Hw].
Defined.

(** ** Strings *)

















(** ** Label mappings *)









(** ** Case *)

















(** ** The built-in patterns *)

Lemma startsWith_includes sub s : Str.startsWith sub s = true -> Str.includes sub s = true.
Proof. intros H. destruct s; simpl; by rewrite H. Qed.

Lemma includes_cons sub c s : Str.includes sub s = true -> Str.includes sub (String c s) = true.
Proof. intros H. simpl. rewrite H. apply orb_true_r. Qed.

Lemma startsWith_cons a p s :
  Str.startsWith (String a p) s = true ->
  exists s', s = String a s' /\ Str.startsWith p s' = true.
Proof.
  destruct s as [|b s]; simpl; [done|].
  intros H. apply andb_true_iff in H as (Hab & Hp). apply Ascii.eqb_eq in Hab as ->. eauto.
Qed.

Lemma includes_darwin_win s : Str.includes "darwin" s = true -> Str.includes "win" s = true.
Proof.
  induction s as [|c s IH].
  - simpl. done.
  - intros H. change (Str.includes "darwin" (String c s))
      with (Str.startsWith "darwin" (String c s) || Str.includes "darwin" s)%bool in H.
    apply orb_true_iff in H as [H | H]; [|by apply includes_cons, IH].
    apply startsWith_cons in H as (s1 & -> & H).
    apply startsWith_cons in H as (s2 & -> & H).
    apply startsWith_cons in H as (s3 & -> & H).
    by do 3 apply includes_cons; apply startsWith_includes.
Qed.

Lemma existsb_impl {A} (P Q : A -> bool) l :
  (forall x, P x = true -> Q x = true) -> existsb P l = true -> existsb Q l = true.
Proof.
  intros HPQ. rewrite !existsb_exists. intros (x & Hx & HP). exists x. auto.
Qed.

(** X8. With no custom mappings, a job one of whose labels contains
    [darwin] (in any case) is never classified as macOS: [win], which
    [darwin] contains, comes before [macos], [mac] and [darwin] in the
    built-in table, so the job is classified as Linux when some label
    contains [ubuntu] or [linux] and as Windows otherwise. *)
Theorem darwin_labels_are_not_macos labels :
  some_label_includes "darwin" labels = true ->
  detectOS labels []
  = Normal (if (some_label_includes "ubuntu" labels || some_label_includes "linux" labels)%bool
            then linux else windows).
Proof.
  unfold some_label_includes. intros H.
  apply (existsb_impl _ (Str.includes "win") _ includes_darwin_win) in H.
  unfold detectOS. simpl customPass. unfold bind.
  unfold DEFAULT_PATTERNS, defaultPass; simpl pattern; simpl os.
  destruct (existsb (Str.includes "ubuntu") _); [reflexivity|].
  destruct (existsb (Str.includes "linux") _); [reflexivity|].
  destruct (existsb (Str.includes "windows") _); [reflexivity|].
  by rewrite H.
Qed.

Lemma darwin_labels_are_not_macos_witness :
  detectOS ["self-hosted"; "Darwin-ARM64"] [] = Normal windows.
Proof. exact (darwin_labels_are_not_macos ["self-hosted"; "Darwin-ARM64"] eq_refl). Defined.

(** ** Patterns that do not compile *)




Section Malformed.

Variable getTime : string -> Z.



End Malformed.

Example malformed_pattern_sample :
  aggregateBilling isoTime sample_jobs [ {| pattern := "?x"; os := linux |} ] = Throw SyntaxError.
Proof. vm_compute. reflexivity. Qed.

(** ** From the fetched jobs to the bill *)

Lemma jobs_of_run_completed octokit run j :
  j ∈ jobs_of_run octokit run ->
  completed j = true /\ repo_full_name j = repository_full_name run.
Proof.
  unfold jobs_of_run. intros Hj. apply list_elem_of_fmap in Hj as (job & -> & Hjob).
  destruct (forallb arrived _); [|by apply elem_of_nil in Hjob].
  apply list_elem_of_filter in Hjob as (Ht & _). done.
Qed.

Lemma filter_all {A} (P : A -> Prop) `{!forall x, Decision (P x)} (l : list A) :
  Forall P l -> filter P l = l.
Proof.
  induction 1 as [|x l Hx _ IH]; [reflexivity|].
  by rewrite filter_cons, decide_True, IH.
Qed.

(** X10. What [fetchAllJobs] fetches (cache disabled or missed) is billed
    whole by [aggregateBilling]: every fetched job has a completion time, so
    none is skipped, [jobCount] is the number of fetched jobs, the billed jobs
    are the fetched jobs in order, and every repository of [byRepo] is the
    repository of one of the runs. *)
Theorem fetched_jobs_are_all_billed getTime octokit runs useCache cached fetched maps r :
  useCache = false \/ cached = None ->
  fetchAllJobs octokit runs useCache cached = Normal fetched ->
  aggregateBilling getTime fetched maps = Normal r ->
  jobCount r = Z.of_nat (length fetched) /\
  map br_job (jobs r) = fetched /\
  (forall k, is_Some (byRepo r !! k) ->
             exists run, run ∈ runs /\ repository_full_name run = k).
Proof.
  intros Hmiss Hfetch Hbill.
  rewrite fetchAllJobs_fetched in Hfetch by done. injection Hfetch as <-.
  set (fetched := flat_map (jobs_of_run octokit) runs) in *.
  assert (Hall : forall j, j ∈ fetched ->
                   completed j = true /\
                   exists run, run ∈ runs /\ repository_full_name run = repo_full_name j).
  { intros j Hj. apply list_elem_of_In, in_flat_map in Hj as (run & Hrun & Hj).
    apply list_elem_of_In in Hrun, Hj.
    apply jobs_of_run_completed in Hj as (Hc & Hrepo). eauto. }
  assert (Hdone : filter (fun j => completed j = true) fetched = fetched).
  { apply filter_all, Forall_forall. intros j Hj. by apply Hall. }
  destruct (aggregateBilling_Normal _ _ _ _ Hbill) as (bs & Hbs & ->).
  rewrite Hdone in Hbs.
  pose proof (processed_jobs getTime _ _ _ Hbs) as Hjobs.
  destruct (record_jobs_recomputed bs) as (_ & _ & Hrepo & _).
  unfold finish; simpl. rewrite record_jobs_jobs. simpl.
  split; [|split; [exact Hjobs|]].
  - rewrite (foldl_counter (fun st => jobCount (result st))) by reflexivity.
    simpl. by rewrite <- Hjobs, length_map.
  - intros k. rewrite Hrepo. intros Hk.
    destruct (billed_under repo_full_name k bs) as [|b sel] eqn:Esel; [by destruct Hk|].
    assert (Hb : b ∈ billed_under repo_full_name k bs) by (rewrite Esel; by left).
    apply list_elem_of_filter in Hb as (Hkey & Hb).
    destruct (Hall (br_job b)) as (_ & run & Hrun & Hname).
    { rewrite <- Hjobs. by apply list_elem_of_fmap_2. }
    exists run. split; [done|]. by rewrite Hname.
Qed.

Lemma fetched_jobs_are_all_billed_witness :
  exists r,
    aggregateBilling isoTime
      [ {| base := finished_job; repo_full_name := "octo/app"; workflow_name := None |} ] []
    = Normal r /\
    jobCount r = 1.
Proof.
  destruct (aggregateBilling isoTime
              [ {| base := finished_job; repo_full_name := "octo/app";
                   workflow_name := None |} ] []) as [r|e] eqn:E.
  - exists r. split; [reflexivity|].
    exact (proj1 (fetched_jobs_are_all_billed isoTime sample_octokit [unnamed_run; deleted_run]
                    false None _ [] r (or_introl eq_refl) fetchAllJobs_sample E)).
  - vm_compute in E. discriminate E.
Defined.

(** ** Runs within the window *)



(** ** Grouping by period *)

Section ReportFacts.

Variable weekKey : string -> string.
Variable monthKey : string -> string.

Lemma groupByPeriod_sum (f : Rollup -> Z) byDate groupBy :
  f zeroRollup = 0 ->
  (forall data grouped, f (mergeRollup data grouped) = f grouped + f data) ->
  sum_over f (groupByPeriod weekKey monthKey byDate groupBy) = sum_over f byDate.
Proof.
  intros H0 Hf. unfold groupByPeriod. destruct (String.eqb groupBy "day"); [reflexivity|].
  apply (map_fold_weak_ind (fun grouped (m : gmap string Rollup) =>
                              sum_over f grouped = sum_over f m)).
  - reflexivity.
  - intros dateStr data m grouped Hfresh IH.
    rewrite sum_over_upsert, Hf, sum_over_insert_fresh by done. lia.
Qed.

Lemma rollup_sum_insert k v (m : gmap string Rollup) :
  m !! k = None -> rollup_sum (<[k := v]> m) = mergeRollup v (rollup_sum m).
Proof.
  intros H. unfold rollup_sum, mergeRollup; simpl.
  rewrite !sum_over_insert_fresh by done. f_equal; lia.
Qed.

Lemma groupByPeriod_lookup byDate groupBy period :
  groupBy <> "day"%string ->
  groupByPeriod weekKey monthKey byDate groupBy !! period
  = period_entry (dates_of weekKey monthKey groupBy period byDate).
Proof.
  intros Hday. unfold groupByPeriod. apply String.eqb_neq in Hday. rewrite Hday.
  unfold dates_of.
  apply (map_fold_weak_ind
           (fun grouped (m : gmap string Rollup) =>
              grouped !! period
              = period_entry (filter (fun entry => periodKey weekKey monthKey groupBy (fst entry)
                                                   = period) m))).
  - unfold period_entry. rewrite map_filter_empty. by rewrite decide_True.
  - intros dateStr data m grouped Hfresh IH. unfold period_entry in *.
    rewrite upsert_lookup.
    destruct (decide (periodKey weekKey monthKey groupBy dateStr = period)) as [E|E].
    + rewrite map_filter_insert_True by done.
      rewrite decide_False by apply insert_non_empty.
      rewrite rollup_sum_insert by (apply map_lookup_filter_None; by left).
      f_equal. f_equal. rewrite E, IH.
      destruct (decide _) as [->|]; [|reflexivity].
      unfold rollup_sum. by rewrite !sum_over_empty.
    + rewrite map_filter_insert_False by done.
      rewrite delete_id by done. exact IH.
Qed.

(** X12. Grouping the daily breakdown by week or by month loses nothing:
    whatever [--group-by] is, the minutes, the billable minutes and the job
    counts of the periods add up to those of the days; grouping by day
    returns the daily breakdown itself; otherwise a period has an entry
    exactly when some day falls into it, and the entry holds the sums over
    the days of that period. Grouping the [byDate] of a result of
    [aggregateBilling] therefore adds up to its [totalMinutes],
    [totalBillableMinutes] and [jobCount]. *)
Theorem groupByPeriod_keeps_the_totals :
  (forall byDate groupBy,
     let grouped := groupByPeriod weekKey monthKey byDate groupBy in
     sum_over r_minutes grouped = sum_over r_minutes byDate /\
     sum_over r_billableMinutes grouped = sum_over r_billableMinutes byDate /\
     sum_over r_jobCount grouped = sum_over r_jobCount byDate) /\
  (forall byDate, groupByPeriod weekKey monthKey byDate "day" = byDate) /\
  (forall byDate groupBy period,
     groupBy <> "day"%string ->
     groupByPeriod weekKey monthKey byDate groupBy !! period
     = period_entry (dates_of weekKey monthKey groupBy period byDate)) /\
  (forall getTime jobList maps r groupBy,
     aggregateBilling getTime jobList maps = Normal r ->
     let grouped := groupByPeriod weekKey monthKey (byDate r) groupBy in
     sum_over r_minutes grouped = totalMinutes r /\
     sum_over r_billableMinutes grouped = totalBillableMinutes r /\
     sum_over r_jobCount grouped = jobCount r).
Proof.
  assert (Hg : forall byDate groupBy,
             let grouped := groupByPeriod weekKey monthKey byDate groupBy in
             sum_over r_minutes grouped = sum_over r_minutes byDate /\
             sum_over r_billableMinutes grouped = sum_over r_billableMinutes byDate /\
             sum_over r_jobCount grouped = sum_over r_jobCount byDate).
  { intros byDate groupBy. repeat split; apply groupByPeriod_sum; reflexivity. }
  split; [exact Hg|]. split; [reflexivity|]. split; [apply groupByPeriod_lookup|].
  intros getTime jobList maps r groupBy H.
  destruct (Hg (byDate r) groupBy) as (Hm & Hb & Hj). simpl. rewrite Hm, Hb, Hj.
  destruct (aggregateBilling_Normal _ _ _ _ H) as (bs & _ & ->).
  destruct (finish_totals bs (foldl collect_run ∅ jobList))
    as ((_ & _ & E1 & _) & (_ & _ & E2 & _) & _ & E3).
  auto.
Qed.

End ReportFacts.

(** ** Sorting strings *)

Lemma ascii_compare_N a b : Ascii.compare a b = N.compare (N_of_ascii a) (N_of_ascii b).
Proof. reflexivity. Qed.

Lemma string_compare_cons x a y b :
  String.compare (String x a) (String y b)
  = match Ascii.compare x y with
    | Eq => String.compare a b
    | o => o
    end.
Proof. reflexivity. Qed.

#[local] Instance string_le_trans : Transitive string_le.
Proof.
  unfold string_le, String.leb. intros a. induction a as [|x a IH]; intros b c Hab Hbc.
  - by destruct c.
  - destruct b as [|y b]; [done|]. destruct c as [|z c]; [done|].
    rewrite string_compare_cons in *. rewrite ascii_compare_N in *.
    destruct (N.compare_spec (N_of_ascii x) (N_of_ascii y)) as [Exy|Lxy|Gxy]; [| |done].
    + rewrite Exy. destruct (N.compare_spec (N_of_ascii y) (N_of_ascii z)); [|done|done].
      by apply (IH b c).
    + destruct (N.compare_spec (N_of_ascii y) (N_of_ascii z)) as [Eyz|Lyz|Gyz]; [| |done].
      * rewrite <- Eyz. by rewrite (proj2 (N.compare_lt_iff _ _) Lxy).
      * by rewrite (proj2 (N.compare_lt_iff _ _) (N.lt_trans _ _ _ Lxy Lyz)).
Qed.

#[local] Instance string_le_antisym : AntiSymm eq string_le.
Proof. intros a b. apply String.leb_antisym. Qed.

#[local] Instance string_le_total : Total string_le.
Proof. intros a b. apply String.leb_total. Qed.


(** ** The CSV report *)

Section CsvFacts.

Variable weekKey : string -> string.
Variable monthKey : string -> string.

(** X13. [outputCSV] prints the header line and then one row per period of
    the grouped breakdown, each period exactly once, in increasing order of
    the period (as strings): the row of a period holds the period and its
    minutes, billable minutes and job count. *)
Theorem outputCSV_prints_one_row_per_period billing groupBy :
  let grouped := groupByPeriod weekKey monthKey (byDate billing) groupBy in
  exists periods,
    outputCSV weekKey monthKey billing groupBy
    = "period,minutes,billable_minutes,jobs"%string
      :: map (fun period => csv_row period (default zeroRollup (grouped !! period))) periods /\
    NoDup periods /\
    Sorted string_le periods /\
    (forall period, period ∈ periods <-> is_Some (grouped !! period)) /\
    length (outputCSV weekKey monthKey billing groupBy) = S (size grouped).
Proof.
  intros grouped.
  set (periods := sortStrings (elements (dom grouped : gset string))).
  assert (HP : periods ≡ₚ elements (dom grouped : gset string)).
  { apply merge_sort_Permutation. }
  exists periods. split; [reflexivity|]. split; [|split; [|split]].
  - rewrite HP. apply NoDup_elements.
  - apply Sorted_merge_sort, _.
  - intros period. rewrite HP, elem_of_elements. apply elem_of_dom.
  - unfold outputCSV. fold grouped. fold periods. simpl. rewrite length_map. f_equal.
    rewrite HP. rewrite <- size_dom. reflexivity.
Qed.

End CsvFacts.

Example outputCSV_sample :
  outputCSV (fun d => d) month_of sample_result "month"
  = [ "period,minutes,billable_minutes,jobs"; "2024-01,160,300,3" ]%string.
Proof. vm_compute. reflexivity. Qed.

Example outputCSV_by_day :
  outputCSV (fun d => d) month_of sample_result "day"
  = [ "period,minutes,billable_minutes,jobs";
      "2024-01-15,150,200,2";
      "2024-01-16,10,100,1" ]%string.
Proof. vm_compute. reflexivity. Qed.

(** ** Rounding up, job by job *)

Section Rounding.

Variable getTime : string -> Z.


End Rounding.

(** ** Cost projections *)

Lemma inject_Z_dayCount differenceInDays : ~ (inject_Z (dayCount differenceInDays) == 0)%Q.
Proof. unfold dayCount, Qeq, inject_Z; simpl. lia. Qed.

Lemma processed_well_formed getTime maps js bs :
  map_completion (fun j => processJob getTime j maps) js = Normal bs -> Forall well_formed bs.
Proof.
  rewrite map_completion_Forall2. induction 1 as [|j b js bs Hb _ IH]; constructor; [|done].
  by apply processJob_Normal in Hb as (_ & _ & _ & Hb & _).
Qed.

Lemma sum_of_nonneg f bs : Forall (fun b => 0 <= f b) bs -> 0 <= sum_of f bs.
Proof. induction 1; simpl; lia. Qed.

Lemma Qscale_le a (k k' : Z) :
  (0 <= a)%Q -> k <= k' -> (a * inject_Z k <= a * inject_Z k')%Q.
Proof.
  destruct a as [n d]. unfold Qle, Qmult, inject_Z; simpl. intros H0 Hk.
  rewrite !Pos.mul_1_r. apply Z.mul_le_mono_nonneg_r; [lia|]. nia.
Qed.

(** X15. For a result of [aggregateBilling] and the day count the report
    uses, [Math.max(1, differenceInDays)], the exact daily projection times
    the number of days is [totalBillableMinutes] times 0.008, the weekly
    projection is 7 and the monthly one 30 times the daily one; and when no
    billed job has a negative duration, 0 <= daily <= weekly <= monthly. *)
Theorem projections_follow_the_billable_minutes getTime jobList maps r differenceInDays :
  aggregateBilling getTime jobList maps = Normal r ->
  let days := dayCount differenceInDays in
  let p := projectCosts_exact r days in
  1 <= days /\
  (daily p * inject_Z days == inject_Z (totalBillableMinutes r) * (8 # 1000))%Q /\
  (weekly p == daily p * 7)%Q /\
  (monthly p == daily p * 30)%Q /\
  (Forall (fun b => 0 <= br_durationMinutes b) (jobs r) ->
   (0 <= daily p)%Q /\ (daily p <= weekly p)%Q /\ (weekly p <= monthly p)%Q).
Proof.
  intros H days p.
  destruct (aggregateBilling_Normal _ _ _ _ H) as (bs & Hbs & Hr).
  assert (Hw : weighted r).
  { rewrite Hr. apply (record_jobs_weighted bs initialState).
    - eapply processed_well_formed, Hbs.
    - repeat split. intros []; reflexivity. }
  pose proof (weighted_cost _ Hw) as Hcost.
  assert (Hd : (daily p * inject_Z days == estimateCost_exact r)%Q).
  { unfold p, projectCosts_exact, projectCosts_in; simpl.
    fold (estimateCost_exact r). rewrite Qmult_comm. apply Qmult_div_r, inject_Z_dayCount. }
  split; [unfold days, dayCount; lia|].
  split; [by rewrite Hd|].
  split; [reflexivity|]. split; [reflexivity|].
  intros Hpos.
  assert (H0 : (0 <= daily p)%Q).
  { assert (Hc : (0 <= estimateCost_exact r)%Q).
    { rewrite Hcost. destruct (finish_totals bs (foldl collect_run ∅ jobList))
        as (_ & (Hb & _) & _). rewrite <- Hr in Hb. rewrite Hb.
      assert (0 <= sum_of br_billableMinutes (jobs r)).
      { apply sum_of_nonneg. apply Forall_forall. intros b Hb'.
        assert (Hwf : well_formed b).
        { assert (Hall : Forall well_formed (jobs r)).
          { rewrite Hr. unfold finish; simpl. rewrite record_jobs_jobs. simpl.
            eapply processed_well_formed, Hbs. }
          by apply (proj1 (Forall_forall _ _) Hall). }
        pose proof (proj1 (Forall_forall _ _) Hpos b Hb') as Hdur. simpl in Hdur.
        rewrite Hwf. destruct (br_os b); simpl; lia. }
      unfold Qle, Qmult, inject_Z; simpl. lia. }
    unfold p, projectCosts_exact, projectCosts_in; simpl. fold (estimateCost_exact r).
    unfold Qdiv. apply Qmult_le_0_compat; [exact Hc|].
    apply Qinv_le_0_compat. unfold days, dayCount, Qle, inject_Z; simpl. lia. }
  split; [exact H0|].
  change (weekly p) with (daily p * inject_Z 7)%Q.
  change (monthly p) with (daily p * inject_Z 30)%Q.
  split.
  - rewrite <- (Qmult_1_r (daily p)) at 1. by apply (Qscale_le _ 1 7).
  - by apply Qscale_le.
Qed.

Lemma projections_follow_the_billable_minutes_witness :
  (monthly (projectCosts_exact sample_result 30) == 24 # 10)%Q.
Proof.
  destruct (projections_follow_the_billable_minutes isoTime sample_jobs [] _ 30
              sample_result_returned) as (_ & Hd & _ & Hm & _).
  rewrite Hm. change (dayCount 30) with 30 in *.
  assert (E : (daily (projectCosts_exact sample_result 30) * 30
               == daily (projectCosts_exact sample_result 30) * inject_Z 30)%Q) by reflexivity.
  rewrite E, Hd. vm_compute. reflexivity.
Defined.

Lemma Z2float_zero : Prim2SF (Z2float 0) = S754_zero false.
Proof. vm_compute. reflexivity. Qed.

Lemma div_by_zero_not_finite x : not_finite (x / Z2float 0) = true.
Proof.
  unfold not_finite. rewrite div_spec, Z2float_zero.
  by destruct (Prim2SF x) as [[]|[]| |[] m e].
Qed.

Lemma mul_not_finite x k :
  not_finite x = true ->
  (exists s m e, Prim2SF k = S754_finite s m e) ->
  not_finite (x * k) = true.
Proof.
  unfold not_finite. intros Hx (s & m & e & Hk). rewrite mul_spec, Hk.
  by destruct (Prim2SF x) as [[]|[]| |[] m' e'], s.
Qed.

(** X16. [projectCosts] divides by [daysOfData] unguarded: with 0 days
    none of the three projections is a finite number (each is [NaN] or an
    infinity), whatever the billing. The report never asks for that: its day
    count is at least 1. *)
Theorem projectCosts_of_no_days_is_not_finite billing :
  let p := projectCosts billing 0 in
  not_finite (daily p) = true /\
  not_finite (weekly p) = true /\
  not_finite (monthly p) = true /\
  forall differenceInDays, 1 <= dayCount differenceInDays.
Proof.
  intros p. unfold p, projectCosts, projectCosts_in; simpl.
  pose proof (div_by_zero_not_finite
                (estimateCost_in 0%float PrimFloat.add PrimFloat.mul Z2float COST_PER_MINUTE
                   billing)) as Hd.
  split; [exact Hd|]. split; [|split].
  - apply mul_not_finite; [exact Hd|]. vm_compute. eauto.
  - apply mul_not_finite; [exact Hd|]. vm_compute. eauto.
  - intros d. unfold dayCount. lia.
Qed.

(** ** The cache store, key by key *)

Section CacheKeys.

Context {T : Type}.
Variable CACHE_DIR : string.
Variable md5hex : string -> string.
Variable JSON_stringify : CacheEntry T -> string.
Variable JSON_parse : string -> option (CacheEntry T).

(** What [getCache] returns is read off the file of its key. *)
Lemma getCache_value now keyParts ttl fs :
  fst (getCache CACHE_DIR md5hex JSON_parse now keyParts ttl fs)
  = Normal (match files fs !! entry_path CACHE_DIR md5hex keyParts with
            | Some content =>
                match JSON_parse content with
                | Some entry =>
                    if negb (String.eqb (version entry) CACHE_VERSION)
                       || (now - timestamp entry >? ttl)
                    then None else Some (data entry)
                | None => None
                end
            | None => None
            end).
Proof.
  destruct (getCache_unfold CACHE_DIR md5hex JSON_parse now keyParts ttl fs)
    as (fs0 & _ & _ & ->).
  destruct (files fs !! entry_path CACHE_DIR md5hex keyParts) as [content|]; [|done].
  destruct (JSON_parse content) as [entry|]; [|done].
  by destruct (negb (String.eqb (version entry) CACHE_VERSION) || (now - timestamp entry >? ttl)).
Qed.

Lemma getCache_files now keyParts ttl fs :
  exists r fs',
    getCache CACHE_DIR md5hex JSON_parse now keyParts ttl fs = (Normal r, fs') /\
    files fs' ⊆ files fs /\
    (forall p, p <> entry_path CACHE_DIR md5hex keyParts -> files fs' !! p = files fs !! p).
Proof.
  destruct (getCache_unfold CACHE_DIR md5hex JSON_parse now keyParts ttl fs)
    as (fs0 & Hf & _ & ->).
  destruct (files fs !! entry_path CACHE_DIR md5hex keyParts) as [content|];
    [|exists None, fs0; by rewrite Hf].
  destruct (JSON_parse content) as [entry|]; [|exists None, fs0; by rewrite Hf].
  destruct (negb (String.eqb (version entry) CACHE_VERSION) || (now - timestamp entry >? ttl)).
  - eexists _, _. split; [reflexivity|]. simpl. rewrite Hf.
    split; [apply delete_subseteq|]. intros p Hp. by apply lookup_delete_ne.
  - eexists _, fs0. by rewrite Hf.
Qed.


(** X17. Neither [getCache] nor [setCache] ever throws, and each touches no
    file but the entry file of its key: [getCache] at most deletes it,
    [setCache] writes it. What [getCache] returns is determined by the
    content of the entry file of its key, so neither a [setCache] nor a
    [getCache] of a key with another entry file changes it. *)
Theorem cache_keys_do_not_interfere :
  (forall fs now keyParts ttl,
     exists r fs',
       getCache CACHE_DIR md5hex JSON_parse now keyParts ttl fs = (Normal r, fs') /\
       files fs' ⊆ files fs /\
       (forall p, p <> entry_path CACHE_DIR md5hex keyParts -> files fs' !! p = files fs !! p)) /\
  (forall fs now keyParts d ttl,
     exists fs',
       setCache CACHE_DIR md5hex JSON_stringify now keyParts d ttl fs = (Normal tt, fs') /\
       (forall p, p <> entry_path CACHE_DIR md5hex keyParts -> files fs' !! p = files fs !! p)) /\
  (forall fs fs' now keyParts ttl,
     files fs' !! entry_path CACHE_DIR md5hex keyParts
     = files fs !! entry_path CACHE_DIR md5hex keyParts ->
     fst (getCache CACHE_DIR md5hex JSON_parse now keyParts ttl fs')
     = fst (getCache CACHE_DIR md5hex JSON_parse now keyParts ttl fs)) /\
  (forall fs now keyParts d ttl now' other ttl',
     entry_path CACHE_DIR md5hex other <> entry_path CACHE_DIR md5hex keyParts ->
     fst (getCache CACHE_DIR md5hex JSON_parse now' other ttl'
            (snd (setCache CACHE_DIR md5hex JSON_stringify now keyParts d ttl fs)))
     = fst (getCache CACHE_DIR md5hex JSON_parse now' other ttl' fs)) /\
  (forall fs now keyParts ttl now' other ttl',
     entry_path CACHE_DIR md5hex other <> entry_path CACHE_DIR md5hex keyParts ->
     fst (getCache CACHE_DIR md5hex JSON_parse now' other ttl'
            (snd (getCache CACHE_DIR md5hex JSON_parse now keyParts ttl fs)))
     = fst (getCache CACHE_DIR md5hex JSON_parse now' other ttl' fs)).
Proof.
  assert (Hset : forall fs now keyParts d ttl,
             exists fs',
               setCache CACHE_DIR md5hex JSON_stringify now keyParts d ttl fs = (Normal tt, fs') /\
               (forall p, p <> entry_path CACHE_DIR md5hex keyParts ->
                          files fs' !! p = files fs !! p)).
  { intros fs now keyParts d ttl.
    destruct (setCache_writes CACHE_DIR md5hex JSON_stringify JSON_parse now keyParts d ttl fs)
      as (fs' & E & Hf & _).
    exists fs'. split; [done|]. intros p Hp. rewrite Hf. by apply lookup_insert_ne. }
  assert (Hval : forall fs fs' now keyParts ttl,
             files fs' !! entry_path CACHE_DIR md5hex keyParts
             = files fs !! entry_path CACHE_DIR md5hex keyParts ->
             fst (getCache CACHE_DIR md5hex JSON_parse now keyParts ttl fs')
             = fst (getCache CACHE_DIR md5hex JSON_parse now keyParts ttl fs)).
  { intros fs fs' now keyParts ttl E. by rewrite !getCache_value, E. }
  split; [intros; apply getCache_files|]. split; [exact Hset|]. split; [exact Hval|]. split.
  - intros fs now keyParts d ttl now' other ttl' Hne. apply Hval.
    destruct (Hset fs now keyParts d ttl) as (fs' & -> & Hf). simpl. by apply Hf.
  - intros fs now keyParts ttl now' other ttl' Hne. apply Hval.
    destruct (getCache_files now keyParts ttl fs) as (r & fs' & -> & _ & Hf). simpl.
    by apply Hf.
Qed.

End CacheKeys.

(** ** Cache maintenance *)

Lemma append_inv_head (a b c : string) : a +:+ b = a +:+ c -> b = c.
Proof. induction a as [|x a IH]; simpl; [done|]. intros [= H]. auto. Qed.

Lemma append_assoc (a b c : string) : (a +:+ b) +:+ c = a +:+ (b +:+ c).
Proof.
  induction a as [|x a IH]; [reflexivity|].
  change (String x a +:+ b) with (String x (a +:+ b)).
  change (String x (a +:+ b) +:+ c) with (String x ((a +:+ b) +:+ c)).
  change (String x a +:+ (b +:+ c)) with (String x (a +:+ (b +:+ c))).
  by rewrite IH.
Qed.

Lemma dropPrefix_Some p s n : dropPrefix p s = Some n <-> s = p +:+ n.
Proof.
  revert s. induction p as [|a p IH]; intros s; simpl.
  - split; [by intros [= ->] | by intros ->].
  - destruct s as [|b s]; [split; done|].
    destruct (Ascii.eqb a b) eqn:E.
    + apply Ascii.eqb_eq in E as ->. rewrite IH. split; [by intros -> | by intros [= ->]].
    + apply Ascii.eqb_neq in E. split; [done | by intros [= ? _]].
Qed.

Lemma entry_name_Some dir p name :
  entry_name dir p = Some name <->
  p = dir +:+ "/" +:+ name /\ name <> EmptyString /\ has_slash name = false.
Proof.
  unfold entry_name. split.
  - destruct (dropPrefix (dir +:+ "/") p) as [n|] eqn:E; [|done].
    apply dropPrefix_Some in E. destruct (String.eqb n EmptyString) eqn:En; [done|].
    destruct (has_slash n) eqn:Hs; [done|]. simpl. intros [= <-].
    apply String.eqb_neq in En. split; [|done].
    rewrite E. apply append_assoc.
  - intros (-> & Hne & Hs).
    assert (E : dropPrefix (dir +:+ "/") (dir +:+ "/" +:+ name) = Some name).
    { apply dropPrefix_Some. symmetry. apply append_assoc. }
    rewrite E, Hs. apply String.eqb_neq in Hne. by rewrite Hne.
Qed.

Lemma is_cache_file_path dir p :
  is_cache_file dir p = true <->
  exists name, p = dir +:+ "/" +:+ name /\ name <> EmptyString /\ has_slash name = false /\
               endsWith ".json" name = true.
Proof.
  unfold is_cache_file. split.
  - destruct (entry_name dir p) as [name|] eqn:E; [|done].
    apply entry_name_Some in E as (-> & ? & ?). eauto.
  - intros (name & Hp & Hne & Hs & He).
    by rewrite (proj2 (entry_name_Some dir p name) (conj Hp (conj Hne Hs))).
Qed.

Lemma sum_over_delete {V} (f : V -> Z) k v (m : gmap string V) :
  m !! k = Some v -> sum_over f (delete k m) = sum_over f m - f v.
Proof.
  intros H. rewrite <- (insert_delete_id m k v H) at 2.
  rewrite sum_over_insert_fresh by apply lookup_delete_eq. lia.
Qed.

Lemma sum_over_filter_split {V} (f : V -> Z) (P : string * V -> Prop)
    `{!forall x, Decision (P x)} (m : gmap string V) :
  sum_over f m = sum_over f (filter P m) + sum_over f (filter (fun x => ~ P x) m).
Proof.
  induction m as [|k v m Hk IH] using map_ind.
  - rewrite !map_filter_empty, sum_over_empty. lia.
  - rewrite sum_over_insert_fresh by done.
    destruct (decide (P (k, v))) as [HP|HP].
    + rewrite map_filter_insert_True by done.
      rewrite (map_filter_insert_False (fun x => ~ P x)) by (simpl; tauto).
      rewrite delete_id by done.
      rewrite sum_over_insert_fresh by (apply map_lookup_filter_None; by left). lia.
    + rewrite map_filter_insert_False by done.
      rewrite (map_filter_insert_True (fun x => ~ P x)) by done.
      rewrite delete_id by done.
      rewrite sum_over_insert_fresh by (apply map_lookup_filter_None; by left). lia.
Qed.

Lemma size_filter_split {V} (P : string * V -> Prop) `{!forall x, Decision (P x)}
    (m : gmap string V) :
  size m = (size (filter P m) + size (filter (fun x => ~ P x) m))%nat.
Proof.
  induction m as [|k v m Hk IH] using map_ind.
  - by rewrite !map_filter_empty, map_size_empty.
  - rewrite map_size_insert_None by done.
    destruct (decide (P (k, v))) as [HP|HP].
    + rewrite map_filter_insert_True by done.
      rewrite (map_filter_insert_False (fun x => ~ P x)) by (simpl; tauto).
      rewrite delete_id by done.
      rewrite map_size_insert_None by (apply map_lookup_filter_None; by left). lia.
    + rewrite map_filter_insert_False by done.
      rewrite (map_filter_insert_True (fun x => ~ P x)) by done.
      rewrite delete_id by done.
      rewrite map_size_insert_None by (apply map_lookup_filter_None; by left). lia.
Qed.

(** A map summed along a list of its keys. *)
Lemma sum_over_keys {V} (f : V -> Z) ks : forall m : gmap string V,
  NoDup ks -> (forall k, k ∈ ks <-> is_Some (m !! k)) ->
  sum_over f m = foldr (fun k acc => from_option f 0 (m !! k) + acc) 0 ks.
Proof.
  induction ks as [|k ks IH]; intros m Hnd Hks.
  - assert (m = ∅) as ->; [|apply sum_over_empty].
    apply map_empty. intros k. apply eq_None_not_Some. rewrite <- Hks. apply not_elem_of_nil.
  - apply NoDup_cons in Hnd as (Hk & Hnd).
    destruct (proj1 (Hks k)) as (v & Hv); [by left|].
    simpl. rewrite Hv. simpl.
    rewrite <- (insert_delete_id m k v Hv) at 1.
    rewrite sum_over_insert_fresh by apply lookup_delete_eq. f_equal.
    rewrite (IH (delete k m) Hnd).
    + clear IH Hks Hnd. induction ks as [|k' ks IH]; simpl; [reflexivity|].
      apply not_elem_of_cons in Hk as (Hne & Hk).
      rewrite lookup_delete_ne by done. f_equal. by apply IH.
    + intros k'. rewrite lookup_delete_is_Some, <- Hks, elem_of_cons.
      split; [intros H; split; [by intros <- | by right] | by intros (Hne & [?|?])].
Qed.

Section MaintenanceFacts.

Context {T : Type}.
Variable CACHE_DIR : string.
Variable md5hex : string -> string.
Variable JSON_parse : string -> option (CacheEntry T).
Variable directory_size : Z.

Lemma readdirSync_listed fs names fs' :
  readdirSync CACHE_DIR fs = (Normal names, fs') ->
  fs' = fs /\ CACHE_DIR ∈ directories fs /\ NoDup names /\
  (forall file, file ∈ names <-> listed CACHE_DIR fs file).
Proof.
  unfold readdirSync. case_bool_decide as Hd; [|done]. intros [= <- <-].
  split; [done|]. split; [done|]. split.
  - assert (Hnd : NoDup (elements (dom (files fs) ∪ directories fs))) by apply NoDup_elements.
    induction Hnd as [|p ps Hp _ IH]; simpl; [constructor|].
    destruct (entry_name CACHE_DIR p) as [name|] eqn:E; [|exact IH].
    constructor; [|exact IH]. rewrite list_elem_of_omap. intros (q & Hq & Eq).
    apply entry_name_Some in E as (-> & _), Eq as (-> & _). done.
  - intros file. rewrite list_elem_of_omap. unfold listed. split.
    + intros (p & Hp & E). apply entry_name_Some in E as (-> & Hne & Hs).
      split; [done|]. split; [done|].
      apply elem_of_elements, elem_of_union in Hp as [Hp|Hp]; [left | by right].
      by apply elem_of_dom.
    + intros (Hne & Hs & Hin). exists (CACHE_DIR +:+ "/" +:+ file). split.
      * apply elem_of_elements, elem_of_union.
        destruct Hin as [Hin|Hin]; [left; by apply elem_of_dom | by right].
      * by apply entry_name_Some.
Qed.

(** What the loop of [clearCache] does on any list of names: it deletes
    cache files only, and its counters keep account of what it deleted
    unless a directory is named like a cache file. *)
Lemma clear_loop_accounts names : forall c fs c' fs',
  clear_loop CACHE_DIR directory_size names c fs = (c', fs') ->
  Forall (fun file => file <> EmptyString /\ has_slash file = false) names ->
  directories fs' = directories fs /\
  files fs' ⊆ files fs /\
  (forall p, is_cache_file CACHE_DIR p <> true -> files fs' !! p = files fs !! p) /\
  (no_directory_among_cache_files CACHE_DIR fs ->
   filesDeleted c' - filesDeleted c = Z.of_nat (size (files fs)) - Z.of_nat (size (files fs')) /\
   bytesFreed c' - bytesFreed c
   = sum_over file_size (files fs) - sum_over file_size (files fs')).
Proof.
  induction names as [|file rest IH]; intros c fs c' fs' H Hnames.
  { simpl in H. injection H as <- <-. repeat split; try done. lia. lia. }
  apply Forall_cons in Hnames as ((Hne & Hs) & Hrest). simpl in H.
  destruct (endsWith ".json" file) eqn:Hjson; [|by apply IH].
  set (path := CACHE_DIR +:+ "/" +:+ file) in *.
  assert (Hcf : is_cache_file CACHE_DIR path = true).
  { apply is_cache_file_path. by exists file. }
  unfold statSync, unlinkSync in H.
  destruct (files fs !! path) as [content|] eqn:Hfile.
  - simpl in H. rewrite Hfile in H.
    apply IH in H as (Hd & Hsub & Hother & Hacc); [|done]. simpl in *.
    split; [done|]. split; [|split].
    + etransitivity; [exact Hsub | apply delete_subseteq].
    + intros p Hp. rewrite Hother by done. apply lookup_delete_ne. by intros <-.
    + intros Hno. destruct Hacc as (Hn & Hb); [exact Hno|].
      rewrite (sum_over_delete _ _ _ _ Hfile) in Hb.
      rewrite map_size_delete, Hfile in Hn.
      pose proof (map_size_non_empty_iff (files fs)) as Hsz.
      assert (size (files fs) <> 0%nat).
      { apply Hsz. intros E. by rewrite E in Hfile. }
      unfold file_size in *. split; lia.
  - case_bool_decide as Hdir.
    + simpl in H. rewrite Hfile in H. injection H as <- <-. simpl.
      split; [done|]. split; [done|]. split; [done|].
      intros Hno. specialize (Hno _ Hdir). congruence.
    + injection H as <- <-. repeat split; try done; lia.
Qed.

(** When every listed name is on the disk as a file, the loop goes through
    and no listed cache file is left. *)
Lemma clear_loop_deletes names : forall c fs c' fs',
  clear_loop CACHE_DIR directory_size names c fs = (c', fs') ->
  NoDup names ->
  (forall file, file ∈ names -> endsWith ".json" file = true ->
                is_Some (files fs !! (CACHE_DIR +:+ "/" +:+ file))) ->
  Forall (fun file => file <> EmptyString /\ has_slash file = false) names ->
  forall file, file ∈ names -> endsWith ".json" file = true ->
               files fs' !! (CACHE_DIR +:+ "/" +:+ file) = None.
Proof.
  induction names as [|f rest IH]; intros c fs c' fs' H Hnd Hpresent Hnames file Hin Hjson.
  { by apply elem_of_nil in Hin. }
  apply NoDup_cons in Hnd as (Hf & Hnd).
  pose proof Hnames as Hall. apply Forall_cons in Hnames as (_ & Hrest).
  simpl in H. destruct (endsWith ".json" f) eqn:Hfj.
  - destruct (Hpresent f) as (content & Hfile); [left | done |].
    unfold statSync, unlinkSync in H. rewrite Hfile in H. simpl in H. rewrite Hfile in H.
    apply elem_of_cons in Hin as [-> | Hin].
    + apply clear_loop_accounts in H as (_ & Hsub & _); [|done].
      eapply lookup_weaken_None; [|exact Hsub]. simpl. apply lookup_delete_eq.
    + eapply IH; try done. simpl. intros g Hg Hgj.
      rewrite lookup_delete_ne; [apply Hpresent; [by right | done]|].
      intros E. do 2 apply append_inv_head in E. by subst.
  - apply elem_of_cons in Hin as [-> | Hin]; [congruence|].
    eapply IH; try done. intros g Hg Hgj. apply Hpresent; [by right | done].
Qed.

Lemma clearCache_returns fs :
  exists c fs', clearCache CACHE_DIR directory_size fs = (Normal c, fs').
Proof.
  unfold clearCache, existsSync. destruct (bool_decide _); [|eauto].
  destruct (readdirSync CACHE_DIR fs) as [[names|e] fs2]; [|eauto].
  destruct (clear_loop _ _ _ _ _). eauto.
Qed.

Lemma clearCache_result fs c fs' :
  clearCache CACHE_DIR directory_size fs = (Normal c, fs') ->
  directories fs' = directories fs /\
  other_files CACHE_DIR fs' = other_files CACHE_DIR fs /\
  files fs' ⊆ files fs /\
  (no_directory_among_cache_files CACHE_DIR fs ->
   filesDeleted c = Z.of_nat (size (files fs)) - Z.of_nat (size (files fs')) /\
   bytesFreed c = sum_over file_size (files fs) - sum_over file_size (files fs') /\
   (CACHE_DIR ∈ directories fs -> cache_files CACHE_DIR fs' = ∅)).
Proof.
  unfold clearCache, existsSync. intros H.
  assert (Hframe : forall fs' : FileSystem,
             (forall p, is_cache_file CACHE_DIR p <> true -> files fs' !! p = files fs !! p) ->
             other_files CACHE_DIR fs' = other_files CACHE_DIR fs).
  { intros fs1 Hp. unfold other_files. apply map_eq. intros p.
    destruct (decide (is_cache_file CACHE_DIR p = true)) as [E|E].
    - rewrite !(proj2 (map_lookup_filter_None _ _ _)); [done | right | right];
        intros x _ Hx; by apply Hx.
    - specialize (Hp p E). destruct (files fs !! p) as [x|] eqn:Ex.
      + rewrite !(map_lookup_filter_Some_2 _ _ p x); done.
      + rewrite !(proj2 (map_lookup_filter_None _ _ _)); [done | by left | by left]. }
  case_bool_decide as Hex.
  - destruct (readdirSync CACHE_DIR fs) as [[names|e] fs2] eqn:Hread.
    + apply readdirSync_listed in Hread as (-> & Hdir & Hnd & Hnames).
      destruct (clear_loop CACHE_DIR directory_size names
                  {| filesDeleted := 0; bytesFreed := 0 |} fs) as [counted fs3] eqn:Hloop.
      injection H as <- <-.
      assert (Hplain : Forall (fun file => file <> EmptyString /\ has_slash file = false) names).
      { apply Forall_forall. intros file Hin. apply Hnames in Hin as (? & ? & _). done. }
      destruct (clear_loop_accounts _ _ _ _ _ Hloop Hplain) as (Hd & Hsub & Hother & Hacc).
      split; [done|]. split; [by apply Hframe|]. split; [done|].
      intros Hno. destruct (Hacc Hno) as (Hn & Hb). simpl in Hn, Hb.
      split; [lia|]. split; [lia|]. intros _.
      apply map_empty_filter. intros p content Hp Hcf. simpl in Hcf.
      apply is_cache_file_path in Hcf as (file & -> & Hne & Hs & Hjson).
      assert (Hin : file ∈ names).
      { apply Hnames. split; [done|]. split; [done|]. left.
        eapply lookup_weaken_is_Some; [|exact Hsub]. eauto. }
      rewrite (clear_loop_deletes _ _ _ _ _ Hloop Hnd) in Hp; try done.
      intros g Hg Hgj. apply Hnames in Hg as (Hgne & Hgs & [Hg|Hg]); [done|].
      specialize (Hno _ Hg).
      assert (is_cache_file CACHE_DIR (CACHE_DIR +:+ "/" +:+ g) = true).
      { apply is_cache_file_path. by exists g. }
      congruence.
    + unfold readdirSync in Hread. case_bool_decide as Hdir; [done|].
      injection Hread as <- <-. injection H as <- <-.
      repeat split; try done; simpl; lia.
  - injection H as <- <-. repeat split; try done; simpl; try lia.
    intros Hdir. exfalso. apply Hex. by left.
Qed.


Lemma cache_files_lookup fs p :
  is_cache_file CACHE_DIR p = true -> cache_files CACHE_DIR fs !! p = files fs !! p.
Proof.
  intros Hp. unfold cache_files. destruct (files fs !! p) as [x|] eqn:E.
  - by apply map_lookup_filter_Some_2.
  - apply map_lookup_filter_None. by left.
Qed.

Lemma cache_files_is_cache_file fs p :
  is_Some (cache_files CACHE_DIR fs !! p) -> is_cache_file CACHE_DIR p = true.
Proof. intros (x & Hx). by apply map_lookup_filter_Some in Hx as (_ & Hx). Qed.

(** With the cache directory in place, [clearCache] removes every cache
    file and counts them all. *)
Lemma clearCache_counts fs c fs' :
  clearCache CACHE_DIR directory_size fs = (Normal c, fs') ->
  no_directory_among_cache_files CACHE_DIR fs ->
  CACHE_DIR ∈ directories fs ->
  cache_files CACHE_DIR fs' = ∅ /\
  filesDeleted c = Z.of_nat (size (cache_files CACHE_DIR fs)) /\
  bytesFreed c = sum_over file_size (cache_files CACHE_DIR fs).
Proof.
  intros H Hno Hdir.
  destruct (clearCache_result _ _ _ H) as (_ & Ho & _ & Hacc).
  destruct (Hacc Hno) as (Hn & Hb & Hall). specialize (Hall Hdir).
  split; [done|].
  assert (S : forall fs0 : FileSystem,
             size (files fs0)
             = (size (cache_files CACHE_DIR fs0) + size (other_files CACHE_DIR fs0))%nat).
  { intros fs0. exact (size_filter_split _ (files fs0)). }
  assert (B : forall fs0 : FileSystem,
             sum_over file_size (files fs0)
             = sum_over file_size (cache_files CACHE_DIR fs0)
               + sum_over file_size (other_files CACHE_DIR fs0)).
  { intros fs0. exact (sum_over_filter_split file_size _ (files fs0)). }
  pose proof (S fs) as S1. pose proof (S fs') as S2.
  pose proof (B fs) as B1. pose proof (B fs') as B2.
  rewrite Hall, Ho in S2, B2. rewrite map_size_empty in S2. rewrite sum_over_empty in B2.
  split; lia.
Qed.

(** X18. [clearCache] never throws and deletes nothing but [.json] entries
    of the cache directory: directories and every other file stay as they
    are. Unless a directory is named like a cache file, [filesDeleted] is
    the number of files that are gone and [bytesFreed] the total length
    they had; and when moreover the cache directory exists as a directory,
    these are the number and the total length of all the cache files, none
    of which is left. *)
Theorem clearCache_deletes_the_cache_files fs :
  exists c fs',
    clearCache CACHE_DIR directory_size fs = (Normal c, fs') /\
    directories fs' = directories fs /\
    other_files CACHE_DIR fs' = other_files CACHE_DIR fs /\
    files fs' ⊆ files fs /\
    (no_directory_among_cache_files CACHE_DIR fs ->
     filesDeleted c = Z.of_nat (size (files fs)) - Z.of_nat (size (files fs')) /\
     bytesFreed c = sum_over file_size (files fs) - sum_over file_size (files fs') /\
     (CACHE_DIR ∈ directories fs ->
      cache_files CACHE_DIR fs' = ∅ /\
      filesDeleted c = Z.of_nat (size (cache_files CACHE_DIR fs)) /\
      bytesFreed c = sum_over file_size (cache_files CACHE_DIR fs))).
Proof.
  destruct (clearCache_returns fs) as (c & fs' & H). exists c, fs'. split; [exact H|].
  destruct (clearCache_result _ _ _ H) as (Hd & Ho & Hsub & Hacc).
  split; [done|]. split; [done|]. split; [done|].
  intros Hno. destruct (Hacc Hno) as (Hn & Hb & _).
  split; [done|]. split; [done|]. intros Hdir.
  by apply clearCache_counts.
Qed.

Lemma stats_loop_reads names : forall tb old fs,
  exists r, stats_loop CACHE_DIR JSON_parse directory_size names tb old fs = (r, fs).
Proof.
  induction names as [|file rest IH]; intros tb old fs; simpl; [by eexists|].
  unfold io_bind, statSync, io_try, readFileSync, parseEntry, io_ret, io_throw.
  destruct (files fs !! (CACHE_DIR +:+ "/" +:+ file)) as [content|] eqn:Hfile; simpl.
  - rewrite Hfile. destruct (JSON_parse content); simpl; apply IH.
  - case_bool_decide; simpl; [rewrite Hfile; simpl; apply IH | by eexists].
Qed.

(** The loop of [getCacheStats] over names that are files on the disk. *)
Lemma stats_loop_totals names : forall tb old fs,
  (forall file, file ∈ names -> is_Some (files fs !! (CACHE_DIR +:+ "/" +:+ file))) ->
  exists oldest,
    stats_loop CACHE_DIR JSON_parse directory_size names tb old fs
    = (Normal (tb + foldr (fun file acc =>
                             from_option file_size 0 (files fs !! (CACHE_DIR +:+ "/" +:+ file))
                             + acc) 0 names,
               oldest), fs) /\
    oldest <= old /\
    (forall file content entry,
       file ∈ names -> files fs !! (CACHE_DIR +:+ "/" +:+ file) = Some content ->
       JSON_parse content = Some entry -> oldest <= timestamp entry) /\
    (oldest = old \/
     exists file content entry,
       file ∈ names /\ files fs !! (CACHE_DIR +:+ "/" +:+ file) = Some content /\
       JSON_parse content = Some entry /\ oldest = timestamp entry).
Proof.
  induction names as [|file rest IH]; intros tb old fs Hfiles.
  { exists old. simpl. unfold io_ret. rewrite Z.add_0_r.
    split; [done|]. split; [lia|]. split; [|by left].
    intros ? ? ? Hin. by apply elem_of_nil in Hin. }
  destruct (Hfiles file) as (content & Hfile); [by left|].
  set (old1 := match JSON_parse content with
               | Some entry => if timestamp entry <? old then timestamp entry else old
               | None => old
               end).
  destruct (IH (tb + file_size content) old1 fs) as (oldest & Hloop & Hle & Hmin & Hwit).
  { intros g Hg. apply Hfiles. by right. }
  exists oldest. split; [|split; [|split]].
  - simpl. unfold io_bind, statSync, io_try, readFileSync, parseEntry, io_ret, io_throw.
    rewrite Hfile. simpl. rewrite Hfile. fold (file_size content).
    unfold old1 in Hloop.
    destruct (JSON_parse content) as [entry|]; simpl; rewrite Hloop; do 3 f_equal; lia.
  - unfold old1 in Hle. destruct (JSON_parse content) as [entry|]; [|done].
    destruct (timestamp entry <? old) eqn:E; [apply Z.ltb_lt in E; lia | done].
  - intros g gc ge Hg Hgfile Hgparse. apply elem_of_cons in Hg as [-> | Hg].
    + rewrite Hfile in Hgfile. injection Hgfile as <-.
      unfold old1 in Hle. rewrite Hgparse in Hle.
      destruct (timestamp ge <? old) eqn:E; [done | apply Z.ltb_ge in E; lia].
    + by eapply Hmin.
  - destruct Hwit as [-> | (g & gc & ge & Hg & Hgfile & Hgparse & ->)].
    + unfold old1. destruct (JSON_parse content) as [entry|] eqn:Hp; [|by left].
      destruct (timestamp entry <? old); [|by left].
      right. exists file, content, entry. split; [by left | done].
    + right. exists g, gc, ge. split; [by right | done].
Qed.

Lemma map_keys_size {V} (m : gmap string V) ks :
  NoDup ks -> (forall k, k ∈ ks <-> is_Some (m !! k)) -> size m = length ks.
Proof.
  intros Hnd Hks. rewrite <- size_dom, <- (size_list_to_set (C := gset string) ks) by done.
  f_equal. apply set_eq. intros k. rewrite elem_of_dom, elem_of_list_to_set. by rewrite Hks.
Qed.

#[local] Instance cache_path_inj : Inj eq eq (fun file => CACHE_DIR +:+ "/" +:+ file).
Proof. intros f g E. by do 2 apply append_inv_head in E. Qed.

Lemma getCacheStats_reads now later fs :
  exists s, getCacheStats CACHE_DIR JSON_parse directory_size now later fs = (Normal s, fs).
Proof.
  unfold getCacheStats, io_try, io_bind, existsSync, io_ret, readdirSync.
  case_bool_decide; simpl; [|by eexists].
  case_bool_decide; simpl; [|by eexists].
  match goal with |- context [stats_loop _ _ _ ?names ?tb ?old fs] =>
    destruct (stats_loop_reads names tb old fs) as ([totals|e] & ->) end; by eexists.
Qed.

(** The cache files as [getCacheStats] finds them. *)
Lemma cache_files_found fs names :
  NoDup names -> (forall file, file ∈ names <-> listed CACHE_DIR fs file) ->
  no_directory_among_cache_files CACHE_DIR fs ->
  let found := filter (fun f => endsWith ".json" f = true) names in
  (forall file, file ∈ found -> is_Some (files fs !! (CACHE_DIR +:+ "/" +:+ file))) /\
  size (cache_files CACHE_DIR fs) = length found /\
  sum_over file_size (cache_files CACHE_DIR fs)
  = foldr (fun file acc =>
             from_option file_size 0 (files fs !! (CACHE_DIR +:+ "/" +:+ file)) + acc) 0 found /\
  (forall p, is_Some (cache_files CACHE_DIR fs !! p) ->
             exists file, file ∈ found /\ p = CACHE_DIR +:+ "/" +:+ file).
Proof.
  intros Hnd Hnames Hno found.
  assert (Hfound : forall file, file ∈ found ->
                     is_cache_file CACHE_DIR (CACHE_DIR +:+ "/" +:+ file) = true /\
                     is_Some (files fs !! (CACHE_DIR +:+ "/" +:+ file))).
  { intros file Hin. apply list_elem_of_filter in Hin as (Hjson & Hin).
    apply Hnames in Hin as (Hne & Hs & Hin).
    assert (Hcf : is_cache_file CACHE_DIR (CACHE_DIR +:+ "/" +:+ file) = true).
    { apply is_cache_file_path. by exists file. }
    split; [done|]. destruct Hin as [Hin|Hin]; [done|].
    specialize (Hno _ Hin). congruence. }
  assert (Hback : forall p, is_Some (cache_files CACHE_DIR fs !! p) ->
                    exists file, file ∈ found /\ p = CACHE_DIR +:+ "/" +:+ file).
  { intros p Hp. pose proof (cache_files_is_cache_file _ _ Hp) as Hcf.
    rewrite (cache_files_lookup _ _ Hcf) in Hp.
    apply is_cache_file_path in Hcf as (file & -> & Hne & Hs & Hjson).
    exists file. split; [|done]. apply list_elem_of_filter. split; [done|].
    apply Hnames. split; [done|]. split; [done|]. by left. }
  set (paths := (fun file => CACHE_DIR +:+ "/" +:+ file) <$> found).
  assert (Hpnd : NoDup paths).
  { apply (NoDup_fmap_2 _), NoDup_filter, Hnd. }
  assert (Hpaths : forall p, p ∈ paths <-> is_Some (cache_files CACHE_DIR fs !! p)).
  { intros p. unfold paths. rewrite list_elem_of_fmap. split.
    - intros (file & -> & Hin). destruct (Hfound file Hin) as (Hcf & Hfile).
      by rewrite (cache_files_lookup _ _ Hcf).
    - intros Hp. destruct (Hback p Hp) as (file & ? & ?). eauto. }
  split; [intros file Hin; by apply Hfound|].
  split; [|split; [|exact Hback]].
  - rewrite (map_keys_size _ paths Hpnd Hpaths). unfold paths. by rewrite length_fmap.
  - rewrite (sum_over_keys file_size paths _ Hpnd Hpaths). unfold paths.
    assert (Hl : forall l : list string,
               (forall file, file ∈ l ->
                  is_cache_file CACHE_DIR (CACHE_DIR +:+ "/" +:+ file) = true) ->
               foldr (fun k acc => from_option file_size 0 (cache_files CACHE_DIR fs !! k) + acc)
                     0 ((fun file => CACHE_DIR +:+ "/" +:+ file) <$> l)
               = foldr (fun file acc =>
                          from_option file_size 0 (files fs !! (CACHE_DIR +:+ "/" +:+ file))
                          + acc) 0 l).
    { induction l as [|file rest IH]; intros Hl; [reflexivity|].
      rewrite fmap_cons. cbn [foldr]. rewrite IH by (intros g Hg; apply Hl; by right).
      by rewrite (cache_files_lookup fs _ (Hl file ltac:(by left))). }
    apply Hl. intros file Hin. by apply Hfound.
Qed.

Lemma getCacheStats_counts now later fs :
  CACHE_DIR ∈ directories fs ->
  no_directory_among_cache_files CACHE_DIR fs ->
  exists oldest,
    getCacheStats CACHE_DIR JSON_parse directory_size now later fs
    = (Normal {| fileCount := Z.of_nat (size (cache_files CACHE_DIR fs));
                 totalBytes := sum_over file_size (cache_files CACHE_DIR fs);
                 oldestAge := if decide (cache_files CACHE_DIR fs = ∅) then None
                              else Some (later - oldest) |}, fs) /\
    oldest <= now /\
    (forall p content entry,
       cache_files CACHE_DIR fs !! p = Some content -> JSON_parse content = Some entry ->
       oldest <= timestamp entry) /\
    (oldest = now \/
     exists p content entry,
       cache_files CACHE_DIR fs !! p = Some content /\ JSON_parse content = Some entry /\
       oldest = timestamp entry).
Proof.
  intros Hdir Hno.
  destruct (readdirSync CACHE_DIR fs) as [[names|e] fs1] eqn:Hread;
    [|unfold readdirSync in Hread; by rewrite bool_decide_eq_true_2 in Hread].
  pose proof Hread as Hread'.
  apply readdirSync_listed in Hread' as (-> & _ & Hnd & Hnames).
  destruct (cache_files_found fs names Hnd Hnames Hno) as (Hfiles & Hsize & Hsum & Hback).
  set (found := filter (fun f => endsWith ".json" f = true) names) in *.
  destruct (stats_loop_totals found 0 now fs Hfiles) as (oldest & Hloop & Hle & Hmin & Hwit).
  exists oldest. split; [|split; [done|split]].
  - unfold getCacheStats, io_try, io_bind at 1. unfold existsSync.
    rewrite bool_decide_eq_true_2 by (by left). simpl.
    unfold io_bind at 1. rewrite Hread. fold found. unfold io_bind, io_ret.
    rewrite Hloop. simpl. rewrite <- Hsize, <- Hsum. do 3 f_equal.
    destruct (decide (cache_files CACHE_DIR fs = ∅)) as [E|E].
    + rewrite E, map_size_empty. reflexivity.
    + apply map_size_non_empty_iff in E.
      replace (0 <? Z.of_nat (size (cache_files CACHE_DIR fs))) with true; [done|].
      symmetry. apply Z.ltb_lt. lia.
  - intros p content entry Hp Hparse.
    destruct (Hback p) as (file & Hin & ->); [by eexists|].
    rewrite cache_files_lookup in Hp by (eapply cache_files_is_cache_file; by eexists).
    by eapply Hmin.
  - destruct Hwit as [-> | (file & content & entry & Hin & Hfile & Hparse & ->)]; [by left|].
    right. exists (CACHE_DIR +:+ "/" +:+ file), content, entry. split; [|done].
    rewrite cache_files_lookup; [done|].
    apply list_elem_of_filter in Hin as (Hjson & Hin). apply Hnames in Hin as (? & ? & _).
    apply is_cache_file_path. by exists file.
Qed.

(** X19. [getCacheStats] never throws and leaves the disk as it is. When the
    cache directory exists as a directory and no directory is named like a
    cache file, [files] is the number of cache files and [totalBytes] their
    total length; [oldestAge] is [null] exactly when there is no cache file,
    and otherwise the time from the oldest timestamp to the end of the call,
    the oldest timestamp being the least among the start of the call and the
    timestamps of the cache files that parse. *)
Theorem getCacheStats_counts_the_cache_files :
  (forall now later fs,
     exists s, getCacheStats CACHE_DIR JSON_parse directory_size now later fs = (Normal s, fs)) /\
  (forall now later fs,
     CACHE_DIR ∈ directories fs ->
     no_directory_among_cache_files CACHE_DIR fs ->
     exists oldest,
       getCacheStats CACHE_DIR JSON_parse directory_size now later fs
       = (Normal {| fileCount := Z.of_nat (size (cache_files CACHE_DIR fs));
                    totalBytes := sum_over file_size (cache_files CACHE_DIR fs);
                    oldestAge := if decide (cache_files CACHE_DIR fs = ∅) then None
                                 else Some (later - oldest) |}, fs) /\
       oldest <= now /\
       (forall p content entry,
          cache_files CACHE_DIR fs !! p = Some content -> JSON_parse content = Some entry ->
          oldest <= timestamp entry) /\
       (oldest = now \/
        exists p content entry,
          cache_files CACHE_DIR fs !! p = Some content /\ JSON_parse content = Some entry /\
          oldest = timestamp entry)).
Proof. split; [apply getCacheStats_reads | apply getCacheStats_counts]. Qed.

Lemma endsWith_app suffix a : endsWith suffix (a +:+ suffix) = true.
Proof.
  induction a as [|c a IH].
  - destruct suffix; simpl; [reflexivity|]. by rewrite Ascii.eqb_refl, String.eqb_refl.
  - change (String c a +:+ suffix) with (String c (a +:+ suffix)). simpl. rewrite IH.
    apply orb_true_r.
Qed.

Lemma has_slash_app a b : has_slash (a +:+ b) = (has_slash a || has_slash b)%bool.
Proof.
  induction a as [|c a IH]; [reflexivity|].
  change (String c a +:+ b) with (String c (a +:+ b)). simpl. by rewrite IH, orb_assoc.
Qed.

Lemma entry_path_is_cache_file keyParts :
  has_slash (getCacheKey md5hex keyParts) = false ->
  is_cache_file CACHE_DIR (entry_path CACHE_DIR md5hex keyParts) = true.
Proof.
  intros Hs. apply is_cache_file_path. exists (getCacheKey md5hex keyParts +:+ ".json").
  split; [reflexivity|]. split; [|split].
  - by destruct (getCacheKey md5hex keyParts).
  - by rewrite has_slash_app, Hs.
  - apply endsWith_app.
Qed.

(** X20. The [--clear-cache] command on a disk whose cache directory exists
    as a directory, with no directory named like a cache file: it does not
    throw, leaves no cache file and touches nothing else; it reports "already
    empty" exactly when there was no cache file, and otherwise the number and
    the total length of the cache files there were. Afterwards
    [getCacheStats] reports an empty cache and [getCache] answers [null] for
    every key (whose digest, being hexadecimal, contains no slash). *)
Theorem clear_cache_command_empties_the_cache now later fs :
  CACHE_DIR ∈ directories fs ->
  no_directory_among_cache_files CACHE_DIR fs ->
  exists report fs',
    clearCacheCommand CACHE_DIR JSON_parse directory_size now later fs = (Normal report, fs') /\
    cache_files CACHE_DIR fs' = ∅ /\
    other_files CACHE_DIR fs' = other_files CACHE_DIR fs /\
    directories fs' = directories fs /\
    (report = None <-> cache_files CACHE_DIR fs = ∅) /\
    (forall cleared, report = Some cleared ->
       filesDeleted cleared = Z.of_nat (size (cache_files CACHE_DIR fs)) /\
       bytesFreed cleared = sum_over file_size (cache_files CACHE_DIR fs)) /\
    (forall now' later',
       getCacheStats CACHE_DIR JSON_parse directory_size now' later' fs'
       = (Normal {| fileCount := 0; totalBytes := 0; oldestAge := None |}, fs')) /\
    (forall now' keyParts ttl,
       has_slash (getCacheKey md5hex keyParts) = false ->
       getCache CACHE_DIR md5hex JSON_parse now' keyParts ttl fs' = (Normal None, fs')).
Proof.
  intros Hdir Hno.
  assert (Hafter : forall fs' : FileSystem,
             cache_files CACHE_DIR fs' = ∅ -> directories fs' = directories fs ->
             (forall now' later',
                getCacheStats CACHE_DIR JSON_parse directory_size now' later' fs'
                = (Normal {| fileCount := 0; totalBytes := 0; oldestAge := None |}, fs')) /\
             (forall now' keyParts ttl,
                has_slash (getCacheKey md5hex keyParts) = false ->
                getCache CACHE_DIR md5hex JSON_parse now' keyParts ttl fs' = (Normal None, fs'))).
  { intros fs' Hempty Hd. split.
    - intros now' later'.
      destruct (getCacheStats_counts now' later' fs') as (oldest & -> & _).
      + by rewrite Hd.
      + intros p. rewrite Hd. apply Hno.
      + rewrite Hempty, map_size_empty, sum_over_empty. by rewrite decide_True.
    - intros now' keyParts ttl Hs.
      destruct (getCache_unfold CACHE_DIR md5hex JSON_parse now' keyParts ttl fs')
        as (fs0 & _ & Hsame & ->).
      rewrite Hsame by (left; by rewrite Hd).
      rewrite <- (cache_files_lookup fs') by by apply entry_path_is_cache_file.
      by rewrite Hempty, lookup_empty. }
  destruct (getCacheStats_counts now later fs Hdir Hno) as (oldest & Hstats & _).
  unfold clearCacheCommand, io_bind at 1. rewrite Hstats. simpl.
  destruct (decide (cache_files CACHE_DIR fs = ∅)) as [E|E].
  - rewrite E, map_size_empty. simpl. unfold io_ret. exists None, fs.
    split; [done|]. split; [done|]. split; [done|]. split; [done|]. split; [done|].
    split; [done|]. by apply Hafter.
  - pose proof E as Hsz. apply map_size_non_empty_iff in Hsz.
    replace (Z.of_nat (size (cache_files CACHE_DIR fs)) =? 0) with false
      by (symmetry; apply Z.eqb_neq; lia).
    destruct (clearCache_returns fs) as (c & fs' & Hclear).
    destruct (clearCache_result _ _ _ Hclear) as (Hd & Ho & _).
    destruct (clearCache_counts _ _ _ Hclear Hno Hdir) as (Hempty & Hn & Hb).
    unfold io_bind, io_ret. rewrite Hclear. exists (Some c), fs'.
    split; [done|]. split; [done|]. split; [done|]. split; [done|].
    split; [split; [done | by intros ?]|].
    split; [by intros ? [= <-]|]. by apply Hafter.
Qed.

End MaintenanceFacts.

(** The command on a sample disk. *)
Lemma clear_cache_command_empties_the_cache_witness :
  exists cleared fs',
    clearCacheCommand home_cache Json.parse 4096 2000 2001 sample_disk
    = (Normal (Some cleared), fs') /\
    filesDeleted cleared = 1 /\
    files fs' = {[ "/home/octo/notes.json"%string := "{}"%string ]}.
Proof.
  destruct (clear_cache_command_empties_the_cache home_cache Json.checksum Json.parse 4096
              2000 2001 sample_disk) as (report & fs' & Hrun & _).
  - unfold sample_disk. simpl. set_solver.
  - intros p Hp. unfold sample_disk in Hp. simpl in Hp. apply elem_of_singleton in Hp as ->.
    vm_compute. reflexivity.
  - vm_compute in Hrun. injection Hrun as <- <-.
    eexists _, _. split; [reflexivity|]. split; vm_compute; reflexivity.
Defined.

Example getCacheStats_sample :
  fst (getCacheStats home_cache Json.parse 4096 2000 2001 sample_disk)
  = Normal {| fileCount := 1; totalBytes := 58; oldestAge := Some 1001 |}.
Proof. vm_compute. reflexivity. Qed.

(** ** Listing the repositories *)



Section OrgReposFacts.

Variable CACHE_DIR : string.
Variable md5hex : string -> string.
Variable JSON_stringify : CacheEntry (list Repository) -> string.
Variable JSON_parse : string -> option (CacheEntry (list Repository)).


End OrgReposFacts.

Example listOrgRepos_sample :
  fst (listOrgRepos home_cache Json.checksum (fun _ => EmptyString) (fun _ => None)
         sample_org_listing "octo" false DEFAULT_CACHE_TTL 1000 1001 empty_disk)
  = Normal [ {| repo_name := "app"; full_name := "octo/app"; owner := "octo" |};
             {| repo_name := "lib"; full_name := "octo/lib"; owner := "octo" |} ].
Proof. vm_compute. reflexivity. Qed.

Example listOrgRepos_fails :
  fst (listOrgRepos home_cache Json.checksum (fun _ => EmptyString) (fun _ => None)
         failing_org_listing "octo" true DEFAULT_CACHE_TTL 1000 1001 empty_disk)
  = Throw (HttpError 502).
Proof. vm_compute. reflexivity. Qed.

(** ** Cache keys *)

Section PipelineFacts.

Variable CACHE_DIR : string.
Variable md5hex : string -> string.
Variable stringify_jobs : CacheEntry (list JobWithRepo) -> string.
Variable parse_jobs : string -> option (CacheEntry (list JobWithRepo)).


End PipelineFacts.

Example jobsCacheKey_sample :
  jobsCacheKey [deleted_run; unnamed_run] = ["jobs"; "20,21"] /\
  String.concat "," (sortStrings (map numberToString [9; 10; 100])) = "10,100,9"%string.
Proof. split; vm_compute; reflexivity. Qed.

(** ** Authentication *)


Lemma normalizeBaseUrl_slashes url :
  exists n, url = normalizeBaseUrl url +:+ slashes n.
Proof.
  induction url as [|c url (n & IH)]; [by exists 0%nat|]. simpl.
  destruct (normalizeBaseUrl url) as [|d rest] eqn:E.
  - destruct (Ascii.eqb c "/") eqn:Ec.
    + apply Ascii.eqb_eq in Ec as ->. exists (S n). simpl. by rewrite IH at 1.
    + exists n. by rewrite IH at 1.
  - exists n. by rewrite IH at 1.
Qed.

Lemma normalizeBaseUrl_no_trailing_slash url :
  endsWith "/" (normalizeBaseUrl url) = false.
Proof.
  induction url as [|c url IH]; [reflexivity|]. simpl.
  destruct (normalizeBaseUrl url) as [|d rest] eqn:E.
  - destruct (Ascii.eqb c "/") eqn:Ec; [reflexivity|]. simpl.
    rewrite Ec. reflexivity.
  - change (endsWith "/" (String c (String d rest)))
      with (String.eqb (String c (String d rest)) "/" || endsWith "/" (String d rest))%bool.
    rewrite IH. simpl. by destruct (Ascii.eqb c "/").
Qed.

Lemma normalizeBaseUrl_idem url :
  normalizeBaseUrl (normalizeBaseUrl url) = normalizeBaseUrl url.
Proof.
  induction url as [|c url IH]; [reflexivity|]. simpl.
  destruct (normalizeBaseUrl url) as [|d rest] eqn:E.
  - destruct (Ascii.eqb c "/") eqn:Ec; [reflexivity|]. simpl. by rewrite Ec.
  - change (normalizeBaseUrl (String c (String d rest)))
      with (match normalizeBaseUrl (String d rest) with
            | EmptyString => if Ascii.eqb c "/" then EmptyString else String c EmptyString
            | r => String c r
            end).
    by rewrite IH.
Qed.

Section AuthFacts.

Variable execSync : string -> completion string.


End AuthFacts.

(** X24. The base URL [getAuth] returns: [GH_ENTERPRISE_URL] and then
    [GITHUB_API_URL], when set and not empty, win over the host, and are
    returned without their trailing slashes, all of them and nothing else, so
    that such a base URL never ends with a slash; otherwise it is
    [https://HOST/api/v3] for a host and [https://api.github.com] without
    one. *)
Theorem resolveBaseUrl_strips_trailing_slashes env host :
  (forall url, env_var env "GH_ENTERPRISE_URL" = Some url ->
               resolveBaseUrl env host = normalizeBaseUrl url) /\
  (forall url, env_var env "GH_ENTERPRISE_URL" = None ->
               env_var env "GITHUB_API_URL" = Some url ->
               resolveBaseUrl env host = normalizeBaseUrl url) /\
  (env_var env "GH_ENTERPRISE_URL" = None -> env_var env "GITHUB_API_URL" = None ->
   resolveBaseUrl env host
   = match host with
     | Some (String c h) => "https://" +:+ String c h +:+ "/api/v3"
     | _ => "https://api.github.com"
     end) /\
  (forall url,
     endsWith "/" (normalizeBaseUrl url) = false /\
     (exists n, url = normalizeBaseUrl url +:+ slashes n) /\
     normalizeBaseUrl (normalizeBaseUrl url) = normalizeBaseUrl url).
Proof.
  split; [|split; [|split]].
  - intros url E. unfold resolveBaseUrl. by rewrite E.
  - intros url E1 E2. unfold resolveBaseUrl. by rewrite E1, E2.
  - intros E1 E2. unfold resolveBaseUrl. rewrite E1, E2. by destruct host as [[|c h]|].
  - intros url. split; [apply normalizeBaseUrl_no_trailing_slash|].
    split; [apply normalizeBaseUrl_slashes | apply normalizeBaseUrl_idem].
Qed.

Example getAuth_sample :
  getAuth sample_gh {[ "GITHUB_API_URL"%string := "https://github.example.com/api/v3//"%string;
                       "GH_TOKEN"%string := EmptyString ]}
          (Some "github.example.com"%string)
  = Normal {| token := "ghp_example"; baseUrl := "https://github.example.com/api/v3" |}.
Proof. vm_compute. reflexivity. Qed.

Example getAuth_not_logged_in :
  getAuth sample_gh ∅ None = Throw (Error (no_token_message None)).
Proof. vm_compute. reflexivity. Qed.
